(** * flutter-version-checker: the version reconciliation logic of [src/index.js]

    The action reads the [version] field of [pubspec.yaml], scans the
    history of a branch for the most relevant earlier version, compares the
    two and, when the current version did not advance, writes a bumped
    version, commits, tags and pushes it.

    Conventions of the embedding.
    - A JavaScript string is a [string] of ASCII characters; [null] and
      [undefined] are [None] of an [option].
    - A JavaScript number is a [JS.number]: a double whose value is an
      integer, an infinity or [NaN].  These are the only numbers that
      [parseInt], [|| 0] and [+ 1] produce.  Arithmetic rounds to the nearest
      double, ties to even; up to 2^53 it is exact.
    - A thrown exception is the [Throw] result of the monad [M]; the effects
      of a run (git invocations, warnings and errors, action outputs,
      manifest writes) are recorded as events.  [core.info] and
      [core.debug] lines have no influence on control flow and are left out. *)

From Stdlib Require Import ZArith List String Ascii Bool Lia.
Import ListNotations.

Local Open Scope string_scope.
Local Open Scope Z_scope.

(** ** JavaScript primitives *)

Module JS.

(** A number of JavaScript, as far as the action computes with numbers: a
    finite double whose value is an integer, an infinity, or [NaN].  [Num 0]
    stands for both zeros, which print, add and compare alike. *)
Inductive number :=
| Num (n : Z)
| Infinity (negative : bool)
| NaN.

Definition code (c : ascii) : Z := Z.of_nat (nat_of_ascii c).

Definition is_digit (c : ascii) : bool := (48 <=? code c) && (code c <=? 57).

(** White space as [parseInt] and [String.prototype.trim] see it (the
    ASCII part): TAB, LF, VT, FF, CR and SPACE. *)
Definition is_space (c : ascii) : bool :=
  ((9 <=? code c) && (code c <=? 13)) || (code c =? 32).

Fixpoint skip_space (s : string) : string :=
  match s with
  | String c r => if is_space c then skip_space r else s
  | EmptyString => s
  end.

Fixpoint all_space (s : string) : bool :=
  match s with
  | String c r => is_space c && all_space r
  | EmptyString => true
  end.

(** Removes trailing white space. *)
Fixpoint drop_space_end (s : string) : string :=
  match s with
  | String c r => if all_space s then EmptyString else String c (drop_space_end r)
  | EmptyString => EmptyString
  end.

(** [s.trim()] *)
Definition trim (s : string) : string := drop_space_end (skip_space s).

(** Truthiness of a possibly missing string: [null], [undefined] and the
    empty string are falsy. *)
Definition truthy (o : option string) : bool :=
  match o with
  | Some (String _ _) => true
  | _ => false
  end.

(** [s.split(sep)] for a one-character separator; the result is never
    empty. *)
Fixpoint split (sep : ascii) (s : string) : list string :=
  match s with
  | EmptyString => [EmptyString]
  | String c r =>
      if Ascii.eqb c sep then EmptyString :: split sep r
      else match split sep r with
           | h :: t => String c h :: t
           | [] => [String c EmptyString]
           end
  end.

(** [parts.join(sep)] *)
Fixpoint join (sep : string) (l : list string) : string :=
  match l with
  | [] => EmptyString
  | [x] => x
  | x :: r => x ++ sep ++ join sep r
  end.

(** The value of the longest prefix of decimal digits, continuing from
    [acc]. *)
Fixpoint read_digits (acc : Z) (s : string) : Z :=
  match s with
  | String c r => if is_digit c then read_digits (10 * acc + (code c - 48)) r else acc
  | EmptyString => acc
  end.

Definition starts_with_digit (s : string) : bool :=
  match s with
  | String c _ => is_digit c
  | EmptyString => false
  end.

(** Up to 2^53 every integer is a double. *)
Definition TWO_53 : Z := 9007199254740992.

(** The doubles end below 2^1024. *)
Definition OVERFLOW : Z := 2 ^ 1024.

(** The double nearest to the natural number [a], a tie going to the even
    significand (the rounding of IEEE 754 that JavaScript uses); [None] when
    that is beyond the largest double.  From 2^53 on a double has a
    significand [q] of 53 bits and an exponent [e]. *)
Definition nearest (a : Z) : option Z :=
  if a <? TWO_53 then Some a
  else
    let e := Z.log2 a - 52 in
    let q := a / 2 ^ e in
    let r := a mod 2 ^ e in
    let half := 2 ^ (e - 1) in
    let q' := if (half <? r) || ((r =? half) && Z.odd q) then q + 1 else q in
    if OVERFLOW <=? q' * 2 ^ e then None else Some (q' * 2 ^ e).

(** The number for a mathematical integer. *)
Definition of_Z (n : Z) : number :=
  match nearest (Z.abs n) with
  | Some m => Num (if n <? 0 then - m else m)
  | None => Infinity (n <? 0)
  end.

(** [parseInt(s, 10)]: leading white space is skipped, one sign is
    accepted, the longest run of digits is read and its value rounded to a
    double (V8 rounds the decimal text correctly); no digit at all gives
    [NaN]. *)
Definition parseInt (s : string) : number :=
  let s1 := skip_space s in
  let '(neg, s2) :=
    match s1 with
    | String c r =>
        if Ascii.eqb c "-" then (true, r)
        else if Ascii.eqb c "+" then (false, r)
        else (false, s1)
    | EmptyString => (false, s1)
    end in
  if starts_with_digit s2
  then of_Z (if neg : bool then - read_digits 0 s2 else read_digits 0 s2)
  else NaN.

(** [parseInt(x, 10)] for an array element that may be [undefined]: the
    text of [undefined] has no digit. *)
Definition parseInt_opt (o : option string) : number :=
  match o with
  | Some s => parseInt s
  | None => NaN
  end.

(** [x || 0] on a number: [NaN] and [0] are falsy. *)
Definition or_zero (x : number) : number :=
  match x with
  | NaN => Num 0
  | _ => x
  end.

(** [a + b]: the exact sum, rounded. *)
Definition add (a b : number) : number :=
  match a, b with
  | NaN, _ | _, NaN => NaN
  | Num x, Num y => of_Z (x + y)
  | Infinity s, Num _ | Num _, Infinity s => Infinity s
  | Infinity s, Infinity t => if Bool.eqb s t then Infinity s else NaN
  end.

(** [a < b], [a > b] and [a <= b]: every comparison with [NaN] is false. *)
Definition lt (a b : number) : bool :=
  match a, b with
  | Num x, Num y => x <? y
  | Num _, Infinity negative => negb negative
  | Infinity negative, Num _ => negative
  | Infinity s, Infinity t => s && negb t
  | _, _ => false
  end.

Definition gt (a b : number) : bool := lt b a.

Definition le (a b : number) : bool :=
  match a, b with
  | NaN, _ | _, NaN => false
  | _, _ => negb (lt b a)
  end.

Definition digit_char (d : Z) : ascii := ascii_of_nat (Z.to_nat (48 + d)).

(** Decimal digits of a non-negative integer, most significant first, in
    front of [acc]. *)
Fixpoint show_digits (fuel : nat) (n : Z) (acc : string) : string :=
  let acc' := String (digit_char (n mod 10)) acc in
  match fuel with
  | O => acc'
  | S f => if n <? 10 then acc' else show_digits f (n / 10) acc'
  end.

Definition show_nonneg (n : Z) : string :=
  show_digits (Z.to_nat (Z.log2 n)) n EmptyString.

(** The decimal text of an integer. *)
Definition show_Z (n : Z) : string :=
  if n <? 0 then String "-"%char (show_nonneg (- n)) else show_nonneg n.

(** Whether the decimal value [v] is read as the double [m]. *)
Definition reads_as (m v : Z) : bool :=
  match nearest v with
  | Some x => x =? m
  | None => false
  end.

(** [Number::toString] prints the shortest decimal significand that is read
    back as the same double, and of these the one nearest to it.  The search
    goes through the prefixes of the digits of [m], longest exponent [j]
    first: the prefix [lo] and its successor [hi] are the candidates with
    that many digits.  The result is the significand and the exponent. *)
Fixpoint shortest (fuel : nat) (m j : Z) : Z * Z :=
  let p := 10 ^ j in
  let lo := m / p in
  let hi := lo + 1 in
  if reads_as m (lo * p) then
    if reads_as m (hi * p) then
      if m - lo * p <? hi * p - m then (lo, j)
      else if hi * p - m <? m - lo * p then (hi, j)
      else if Z.even lo then (lo, j) else (hi, j)
    else (lo, j)
  else if reads_as m (hi * p) then (hi, j)
  else
    match fuel with
    | O => (m, 0)
    | S f => shortest f m (j - 1)
    end.

Fixpoint strip_zeros (fuel : nat) (s : Z) : Z :=
  match fuel with
  | O => s
  | S f => if (0 <? s) && (s mod 10 =? 0) then strip_zeros f (s / 10) else s
  end.

Definition digits (n : Z) : Z := Z.of_nat (String.length (show_nonneg n)).

(** The text of a positive double: below 10^21 all digits of the shortest
    decimal value, from there on its significand and a decimal exponent. *)
Definition show_double (m : Z) : string :=
  let '(s, j) := shortest (Z.to_nat (digits m - 1)) m (digits m - 1) in
  let v := s * 10 ^ j in
  if v <? 10 ^ 21 then show_nonneg v
  else
    let exponent := "e+" ++ show_nonneg (digits v - 1) in
    match show_nonneg (strip_zeros (Z.to_nat (digits s)) s) with
    | String d EmptyString => String d exponent
    | String d rest => String d ("." ++ rest ++ exponent)
    | EmptyString => EmptyString
    end.

(** The text of a number inside a template literal. *)
Definition to_string (x : number) : string :=
  match x with
  | NaN => "NaN"
  | Infinity false => "Infinity"
  | Infinity true => "-Infinity"
  | Num n =>
      if n =? 0 then "0"
      else if n <? 0 then String "-"%char (show_double (- n))
      else show_double n
  end.

(** String comparison [a < b] by character codes. *)
Fixpoint str_lt (a b : string) : bool :=
  match a, b with
  | _, EmptyString => false
  | EmptyString, String _ _ => true
  | String x a', String y b' =>
      if code x <? code y then true
      else if code y <? code x then false
      else str_lt a' b'
  end.

End JS.

(** ** The [semver] dependency

    [compareVersions] delegates the comparison of the base versions to
    [semver.compare] of the npm package [semver] (version 7).  The package is
    not part of the repository; this is a model of its documented behaviour
    in strict mode: a version is [v?MAJOR.MINOR.PATCH(-PRERELEASE)?(+BUILD)?],
    numeric identifiers have no leading zero and do not exceed
    [MAX_SAFE_INTEGER], the text is trimmed first and may not be longer than
    [MAX_LENGTH]; anything else makes the constructor throw a [TypeError]
    ([None] here). Build metadata is ignored by the comparison. *)

Module Semver.

Inductive identifier :=
| Numeric (n : Z)
| Alphanumeric (s : string).

Record t := mk {
  major : Z;
  minor : Z;
  patch : Z;
  prerelease : list identifier
}.

Definition MAX_LENGTH : nat := 256.
Definition MAX_SAFE_INTEGER : Z := 9007199254740991.

Definition is_letter (c : ascii) : bool :=
  ((65 <=? JS.code c) && (JS.code c <=? 90))
  || ((97 <=? JS.code c) && (JS.code c <=? 122)).

(** [[0-9A-Za-z-]] *)
Definition is_ident_char (c : ascii) : bool :=
  JS.is_digit c || is_letter c || (JS.code c =? 45).

Fixpoint all_chars (p : ascii -> bool) (s : string) : bool :=
  match s with
  | String c r => p c && all_chars p r
  | EmptyString => true
  end.

Definition nonempty (s : string) : bool :=
  match s with
  | String _ _ => true
  | EmptyString => false
  end.

(** [0|[1-9]\d*] *)
Definition numeric_identifier (s : string) : bool :=
  match s with
  | EmptyString => false
  | String c r =>
      JS.is_digit c && all_chars JS.is_digit r
      && (negb (JS.code c =? 48) || negb (nonempty r))
  end.

(** A numeric identifier, or an identifier with at least one letter or
    hyphen. *)
Definition prerelease_identifier (s : string) : bool :=
  nonempty s && all_chars is_ident_char s
  && (if all_chars JS.is_digit s then numeric_identifier s else true).

Definition build_identifier (s : string) : bool :=
  nonempty s && all_chars is_ident_char s.

(** The text before the first [sep], and the text after it when there is
    one. *)
Fixpoint cut (sep : ascii) (s : string) : string * option string :=
  match s with
  | EmptyString => (EmptyString, None)
  | String c r =>
      if Ascii.eqb c sep then (EmptyString, Some r)
      else let '(a, b) := cut sep r in (String c a, b)
  end.

Definition to_identifier (s : string) : identifier :=
  if all_chars JS.is_digit s then Numeric (JS.read_digits 0 s) else Alphanumeric s.

Definition parse_prerelease (o : option string) : option (list identifier) :=
  match o with
  | None => Some []
  | Some p =>
      let ids := JS.split "." p in
      if forallb prerelease_identifier ids then Some (map to_identifier ids) else None
  end.

Definition valid_build (o : option string) : bool :=
  match o with
  | None => true
  | Some b => forallb build_identifier (JS.split "." b)
  end.

Definition strip_v (s : string) : string :=
  match s with
  | String c r => if Ascii.eqb c "v" then r else s
  | EmptyString => s
  end.

(** [new SemVer(version)] *)
Definition parse (version : string) : option t :=
  if (MAX_LENGTH <? String.length version)%nat then None
  else
    let '(body, build) := cut "+" (strip_v (JS.trim version)) in
    let '(main, pre) := cut "-" body in
    match JS.split "." main with
    | [a; b; c] =>
        if numeric_identifier a && numeric_identifier b && numeric_identifier c
           && valid_build build
        then
          match parse_prerelease pre with
          | Some ids =>
              let '(x, y, z) := (JS.read_digits 0 a, JS.read_digits 0 b, JS.read_digits 0 c) in
              if (x <=? MAX_SAFE_INTEGER) && (y <=? MAX_SAFE_INTEGER)
                 && (z <=? MAX_SAFE_INTEGER)
              then Some (mk x y z ids)
              else None
          | None => None
          end
        else None
    | _ => None
    end.

Definition compare_Z (a b : Z) : Z :=
  if a <? b then -1 else if b <? a then 1 else 0.

Definition compare_main (a b : t) : Z :=
  if negb (major a =? major b) then compare_Z (major a) (major b)
  else if negb (minor a =? minor b) then compare_Z (minor a) (minor b)
  else compare_Z (patch a) (patch b).

(** Numeric identifiers are below alphanumeric ones. *)
Definition compare_identifiers (a b : identifier) : Z :=
  match a, b with
  | Numeric x, Numeric y => compare_Z x y
  | Numeric _, Alphanumeric _ => -1
  | Alphanumeric _, Numeric _ => 1
  | Alphanumeric x, Alphanumeric y =>
      if String.eqb x y then 0 else if JS.str_lt x y then -1 else 1
  end.

Fixpoint compare_pre_from (a b : list identifier) : Z :=
  match a, b with
  | [], [] => 0
  | _ :: _, [] => 1
  | [], _ :: _ => -1
  | x :: a', y :: b' =>
      let c := compare_identifiers x y in
      if c =? 0 then compare_pre_from a' b' else c
  end.

(** A version without prerelease is above the same version with one. *)
Definition compare_pre (a b : t) : Z :=
  match prerelease a, prerelease b with
  | _ :: _, [] => -1
  | [], _ :: _ => 1
  | [], [] => 0
  | pa, pb => compare_pre_from pa pb
  end.

(** [semver.compare(a, b)]: [-1], [0] or [1], or a [TypeError] when one of
    the texts is not a version. *)
Definition compare (a b : string) : option Z :=
  match parse a, parse b with
  | Some x, Some y =>
      let c := compare_main x y in
      Some (if c =? 0 then compare_pre x y else c)
  | _, _ => None
  end.

End Semver.

(** ** The version codec of [src/index.js] *)

Module Codec.

(** The object returned by [parseFlutterVersion]. *)
Record version := mk {
  major : JS.number;
  minor : JS.number;
  patch : JS.number;
  build : JS.number;
  base : string;
  full : string
}.

(** [parseFlutterVersion(versionStr)]; [None] is the [null] result. *)
Definition parseFlutterVersion (versionStr : option string) : option version :=
  match versionStr with
  | None | Some EmptyString => None
  | Some s =>
      let parts := JS.split "+" s in
      let baseParts := JS.split "." (hd EmptyString parts) in
      let buildNumber :=
        if JS.truthy (nth_error parts 1)
        then JS.parseInt_opt (nth_error parts 1)
        else JS.Num 0 in
      Some {| major := JS.or_zero (JS.parseInt_opt (nth_error baseParts 0));
              minor := JS.or_zero (JS.parseInt_opt (nth_error baseParts 1));
              patch := JS.or_zero (JS.parseInt_opt (nth_error baseParts 2));
              build := buildNumber;
              base := hd EmptyString parts;
              full := s |}
  end.

(** [compareVersions(current, previous)] of lines 37-54: [1], [0] or [-1];
    [None] when [semver.compare] throws. *)
Definition compareVersions (current previous : option string) : option Z :=
  match parseFlutterVersion current, parseFlutterVersion previous with
  | Some currentParsed, Some previousParsed =>
      match Semver.compare (base currentParsed) (base previousParsed) with
      | None => None
      | Some baseComparison =>
          if negb (baseComparison =? 0) then Some baseComparison
          else if JS.gt (build currentParsed) (build previousParsed) then Some 1
          else if JS.lt (build currentParsed) (build previousParsed) then Some (-1)
          else Some 0
      end
  | _, _ => Some 0
  end.

(** [generateNextVersion(previousVersion)] *)
Definition generateNextVersion (previousVersion : option string) : string :=
  match parseFlutterVersion previousVersion with
  | None => "1.0.0+1"
  | Some parsed =>
      let newPatch := JS.add (patch parsed) (JS.Num 1) in
      let newBuild := JS.add (build parsed) (JS.Num 1) in
      JS.to_string (major parsed) ++ "." ++ JS.to_string (minor parsed) ++ "."
        ++ JS.to_string newPatch ++ "+" ++ JS.to_string newBuild
  end.

End Codec.

(** The copy of the codec in the earlier, token-based revision of the action
    (the second document of [src/index.js], lines 584-1053).  It differs from
    [Codec] in the last comparison of [compareVersions] only. *)

Module TokenCodec.

Import Codec.

(** [compareVersions(current, previous)] of lines 619-636. *)
Definition compareVersions (current previous : option string) : option Z :=
  match parseFlutterVersion current, parseFlutterVersion previous with
  | Some currentParsed, Some previousParsed =>
      match Semver.compare (base currentParsed) (base previousParsed) with
      | None => None
      | Some baseComparison =>
          if negb (baseComparison =? 0) then Some baseComparison
          else if JS.gt (build currentParsed) (build previousParsed) then Some 1
          else if JS.le (build currentParsed) (build previousParsed) then Some (-1)
          else Some 0
      end
  | _, _ => Some 0
  end.

End TokenCodec.

(** ** Effects: the environment of a run and the monad of the action *)

Module Effect.

Inductive level := Warning | Error.

(** What a run does to the outside world, in the order it happens. *)
Inductive event :=
| Git (args : list string) (exitCode : Z)
| Log (l : level) (message : string)
| SetOutput (name value : string)
| SetFailed (message : string)
| WritePubspec (version : string).

(** The outcome of one git process: its exit code, what it printed, and
    the message of the error with which [exec.exec] rejects when the exit
    code is not ignored. *)
Record exec_result := {
  exitCode : Z;
  stdout : string;
  stderr : string;
  rejection : string
}.

(** [pubspec.yaml] as the action sees it: a document with a [version]
    field that may be missing, or a file that cannot be read or parsed. *)
Inductive pubspec_file :=
| Unreadable (reason : string)
| Document (version : option string).

(** The external collaborators.  [commits] is the list of commit
    identifiers that [git rev-list] returned for the branch, newest first;
    [pubspec_write_error] is the error that rewriting [pubspec.yaml] runs
    into, if any.  [show] is the outcome of [git show <object>]: the name of
    an object determines its content, so the answer does not depend on the
    moment of the question.  [version_at] is the [version] field that the
    YAML parser finds in a text, [None] when the text is not valid YAML or
    has no such field (the field is taken to be a text, as the current
    version is).  [git] answers every other git invocation; it may depend on
    everything that happened before. *)
Record env := {
  input_branch : string;
  input_commit_message : string;
  input_git_user_email : string;
  input_git_user_name : string;
  input_token : string;
  pubspec_exists : bool;
  pubspec_write_error : option string;
  commits : list string;
  show : string -> exec_result;
  version_at : string -> option string;
  git : list event -> list string -> exec_result
}.

(** [exec.exec('git', args, options)]: the outcome of the git process, after
    the events [t]. *)
Definition exec_git (E : env) (t : list event) (args : list string) : exec_result :=
  match args with
  | [command; object] =>
      if String.eqb command "show" then show E object else git E t args
  | _ => git E t args
  end.

(** The mutable part: the manifest, and the events so far, newest first. *)
Record state := {
  pubspec : pubspec_file;
  trace : list event
}.

Inductive res (A : Type) :=
| Ok (a : A)
| Throw (message : string).
Arguments Ok {A} a.
Arguments Throw {A} message.

Definition M (A : Type) : Type := state -> res A * state.

Definition ret {A} (a : A) : M A := fun s => (Ok a, s).

Definition bind {A B} (m : M A) (k : A -> M B) : M B :=
  fun s =>
    match m s with
    | (Ok a, s') => k a s'
    | (Throw e, s') => (Throw e, s')
    end.

Definition throw {A} (message : string) : M A := fun s => (Throw message, s).

(** [try { m } catch (error) { h error }] *)
Definition try_catch {A} (m : M A) (h : string -> M A) : M A :=
  fun s =>
    match m s with
    | (Ok a, s') => (Ok a, s')
    | (Throw e, s') => h e s'
    end.

Definition emit (e : event) : M unit :=
  fun s => (Ok tt, {| pubspec := pubspec s; trace := e :: trace s |}).

Definition read_pubspec : M pubspec_file := fun s => (Ok (pubspec s), s).

Definition write_pubspec (f : pubspec_file) : M unit :=
  fun s => (Ok tt, {| pubspec := f; trace := trace s |}).

Definition get_trace : M (list event) := fun s => (Ok (trace s), s).

Definition warning (message : string) : M unit := emit (Log Warning message).
Definition error (message : string) : M unit := emit (Log Error message).
Definition setOutput (name value : string) : M unit := emit (SetOutput name value).
Definition setFailed (message : string) : M unit := emit (SetFailed message).

(** The events of a finished run, oldest first. *)
Definition events (s : state) : list event := rev (trace s).

(** The last value set for an output. *)
Fixpoint output_in (name : string) (t : list event) : option string :=
  match t with
  | [] => None
  | SetOutput n v :: r => if String.eqb n name then Some v else output_in name r
  | _ :: r => output_in name r
  end.

Definition output (name : string) (s : state) : option string :=
  output_in name (trace s).

Fixpoint failed_in (t : list event) : bool :=
  match t with
  | [] => false
  | SetFailed _ :: _ => true
  | _ :: r => failed_in r
  end.

(** Whether the run called [core.setFailed]. *)
Definition failed (s : state) : bool := failed_in (trace s).

End Effect.

Declare Scope action_scope.
Delimit Scope action_scope with action.
Notation "x <- m ;; k" := (Effect.bind m (fun x => k))
  (at level 61, m at next level, right associativity) : action_scope.
Notation "m ;; k" := (Effect.bind m (fun _ => k))
  (at level 61, right associativity) : action_scope.

Definition nl : string := String (ascii_of_nat 10) EmptyString.

(** ** The history scan, shared by the two revisions of [src/index.js]
    (lines 197-265 and 767-828)

    Each revision runs it with its own [execGit]. *)

Module History.

Import Effect.
Local Open Scope action_scope.

(** An entry of [foundVersions]. *)
Record found := {
  version : string;
  commit : string
}.

(** How one iteration of the [for] loop ends: with [continue] or at the end
    of the body, with the counters it has then, or with a [return]. *)
Inductive step_end :=
| Continue (sameVersionCount : nat) (foundVersions : list found)
| Stop (previous : string).

(** How the loop ends: with a [return] inside the loop, or by running out
    of commits, with the counters it has then. *)
Inductive loop_end :=
| Return (previous : string)
| Exhausted (sameVersionCount : nat) (foundVersions : list found).

Section Scan.

Variable E : env.
Variable execGit : list string -> bool -> M string.
Variable currentVersion : string.

(** The body of the loop (lines 208-245) for one commit: the manifest of
    the commit is asked from git; a commit without one, or with one that has
    no usable version, is skipped; the first version that is not the
    current text ends the scan. *)
Definition visit (commitHash : string) (sameVersionCount : nat)
    (foundVersions : list found) : M step_end :=
  if negb (JS.truthy (Some (JS.trim commitHash)))
  then ret (Continue sameVersionCount foundVersions)
  else
    try_catch
      (pubspecContent <- execGit ["show"; commitHash ++ ":pubspec.yaml"] false ;;
       if negb (JS.truthy (Some pubspecContent))
       then ret (Continue sameVersionCount foundVersions)
       else
         match version_at E pubspecContent with
         | Some (String c v as commitVersion) =>
             let foundVersions :=
               (foundVersions ++ [{| version := commitVersion;
                                     commit := substring 0 8 commitHash |}])%list in
             if String.eqb commitVersion currentVersion
             then ret (Continue (S sameVersionCount) foundVersions)
             else if (1 <? sameVersionCount)%nat
             then
               warning ("Version " ++ currentVersion ++ " was found in "
                        ++ JS.show_Z (Z.of_nat sameVersionCount)
                        ++ " commits! This indicates version reuse.") ;;
               ret (Stop currentVersion)
             else ret (Stop commitVersion)
         | _ => ret (Continue sameVersionCount foundVersions)
         end)
      (fun _ => ret (Continue sameVersionCount foundVersions)).

(** The loop of lines 207-246. *)
Fixpoint scan (commits : list string) (sameVersionCount : nat)
    (foundVersions : list found) : M loop_end :=
  match commits with
  | [] => ret (Exhausted sameVersionCount foundVersions)
  | commitHash :: rest =>
      step <- visit commitHash sameVersionCount foundVersions ;;
      match step with
      | Continue sameVersionCount foundVersions =>
          scan rest sameVersionCount foundVersions
      | Stop previous => ret (Return previous)
      end
  end.

(** [findPreviousVersion(branch, currentVersion)], from the point where
    the list of commits is known (line 197). *)
Definition findPreviousVersion : M (option string) :=
  try_catch
    (match commits E with
     | [] => warning "No commit history found" ;; ret None
     | _ =>
         r <- scan (commits E) 0%nat [] ;;
         match r with
         | Return previous => ret (Some previous)
         | Exhausted sameVersionCount foundVersions =>
             if (1 <? sameVersionCount)%nat
             then
               warning ("Found " ++ JS.show_Z (Z.of_nat sameVersionCount)
                        ++ " commits with the same version " ++ currentVersion ++ "!") ;;
               ret (Some currentVersion)
             else
               match
                 (if (0 <? List.length foundVersions)%nat
                  then find (fun v => negb (String.eqb (version v) currentVersion))
                         foundVersions
                  else None)
               with
               | Some lastDifferentVersion => ret (Some (version lastDifferentVersion))
               | None => ret None
               end
         end
     end)
    (fun message =>
       warning ("Error finding previous version: " ++ message) ;; ret None).

End Scan.

End History.

(** ** The action of [src/index.js], lines 1-583 (token-free revision)

    Pictographs in the texts of messages are left out. *)

Module Action.

Import Effect Codec.
Local Open Scope action_scope.

Section Run.

Variable E : env.

(** [getCurrentVersion(pubspecPath)] *)
Definition getCurrentVersion : M (option string) :=
  f <- read_pubspec ;;
  match f with
  | Document v => ret (if JS.truthy v then v else None)
  | Unreadable reason =>
      error ("Error reading pubspec.yaml: " ++ reason) ;; ret None
  end.

(** [updatePubspecVersion(pubspecPath, newVersion)] *)
Definition updatePubspecVersion (newVersion : string) : M bool :=
  f <- read_pubspec ;;
  match f, pubspec_write_error E with
  | Document _, None =>
      write_pubspec (Document (Some newVersion)) ;;
      emit (WritePubspec newVersion) ;;
      ret true
  | Document _, Some reason | Unreadable reason, _ =>
      error ("Error updating pubspec.yaml: " ++ reason) ;; ret false
  end.

(** [execGit(args, throwOnError)] *)
Definition execGit (args : list string) (throwOnError : bool) : M string :=
  t <- get_trace ;;
  let r := exec_git E t args in
  emit (Git args (exitCode r)) ;;
  if negb (exitCode r =? 0) then
    if throwOnError then throw (rejection r)
    else
      warning ("Git command failed: git " ++ JS.join " " args ++ nl
               ++ "Error: " ++ JS.trim (stderr r) ++ nl
               ++ "Output: " ++ JS.trim (stdout r)) ;;
      ret EmptyString
  else ret (JS.trim (stdout r)).

(** [findPreviousVersion(branch, currentVersion)], from line 197 on *)
Definition findPreviousVersion (currentVersion : string) : M (option string) :=
  History.findPreviousVersion E execGit currentVersion.

Definition default_user_configs : list (string * string) :=
  [ ("41898282+github-actions[bot]@users.noreply.github.com", "github-actions[bot]");
    ("action@github.com", "GitHub Action Auto-Fix");
    ("noreply@github.com", "GitHub Actions") ].

(** The loop of lines 297-314 from attempt [i] on; the result is
    [configSuccess]. *)
Fixpoint try_user_configs (i : Z) (userConfigs : list (string * string)) : M bool :=
  match userConfigs with
  | [] => ret false
  | (email, name) :: rest =>
      try_catch
        (execGit ["config"; "--local"; "user.email"; email] true ;;
         execGit ["config"; "--local"; "user.name"; name] true ;;
         ret true)
        (fun configError =>
           warning ("Config attempt " ++ JS.show_Z (i + 1) ++ " failed: " ++ configError) ;;
           match rest with
           | [] => throw configError
           | _ => try_user_configs (i + 1) rest
           end)
  end.

(** [configureGit(userEmail, userName)] *)
Definition configureGit (userEmail userName : string) : M unit :=
  try_catch
    (let userConfigs :=
       if JS.truthy (Some userEmail) && JS.truthy (Some userName)
       then [(userEmail, userName)]
       else default_user_configs in
     configSuccess <- try_user_configs 0 userConfigs ;;
     (if negb configSuccess
      then throw "All Git user configuration attempts failed"
      else ret tt) ;;
     execGit ["config"; "--local"; "core.filemode"; "false"] false ;;
     execGit ["config"; "--local"; "core.autocrlf"; "false"] false ;;
     execGit ["config"; "--local"; "core.safecrlf"; "false"] false ;;
     ret tt)
    (fun message =>
       error ("Failed to configure git: " ++ message) ;; throw message).

Definition default_commit_message (newVersion previousVersion : string) : string :=
  "Auto-increment version to " ++ newVersion ++ nl ++ nl
  ++ "Previous version: " ++ previousVersion ++ nl
  ++ "New version: " ++ newVersion ++ nl
  ++ "Auto-generated by GitHub Actions" ++ nl ++ nl
  ++ "[skip ci]".

(** [commitAndPush(branch, newVersion, previousVersion, customMessage,
    userEmail, userName)] *)
Definition commitAndPush (branch newVersion previousVersion customMessage
    userEmail userName : string) : M unit :=
  try_catch
    (configureGit userEmail userName ;;
     let commitMessage :=
       if JS.truthy (Some customMessage) then customMessage
       else default_commit_message newVersion previousVersion in
     status <- execGit ["status"; "--porcelain"] false ;;
     if negb (JS.truthy (Some status)) then ret tt
     else
       execGit ["add"; "pubspec.yaml"] true ;;
       execGit ["diff"; "--cached"; "--name-only"] false ;;
       execGit ["commit"; "-m"; commitMessage] true ;;
       execGit ["rev-parse"; "HEAD"] false ;;
       let tagName := "v" ++ newVersion in
       execGit ["tag"; "-d"; tagName] false ;;
       execGit ["push"; "origin"; ":refs/tags/" ++ tagName] false ;;
       execGit ["tag"; "-a"; tagName; "-m"; "Release " ++ tagName] true ;;
       try_catch
         (execGit ["push"; "origin"; "HEAD:" ++ branch] true ;; ret tt)
         (fun pushError =>
            warning ("Initial push failed: " ++ pushError) ;;
            try_catch
              (execGit ["push"; "origin"; "HEAD"] true ;; ret tt)
              (fun fallbackError =>
                 error ("All push strategies failed: " ++ fallbackError) ;;
                 throw fallbackError)) ;;
       try_catch
         (execGit ["push"; "origin"; tagName] true ;; ret tt)
         (fun tagError => warning ("Failed to push tag: " ++ tagError)) ;;
       ret tt)
    (fun message =>
       error ("Failed to commit and push: " ++ message) ;;
       error ("Error details: " ++ message) ;;
       try_catch
         (execGit ["status"; "--porcelain"] false ;;
          execGit ["remote"; "-v"] false ;;
          execGit ["branch"; "-v"] false ;;
          execGit ["config"; "--list"; "--local"] false ;;
          ret tt)
         (fun debugError =>
            warning ("Could not get git debug info: " ++ debugError)) ;;
       throw message).

(** The result of [compareVersions] inside [run]: a [TypeError] of
    [semver] becomes a thrown exception. *)
Definition compare (currentVersion previousVersion : string) : M Z :=
  match compareVersions (Some currentVersion) (Some previousVersion) with
  | Some c => ret c
  | None => throw "Invalid Version"
  end.

(** The correction, written out twice in [run] (lines 508-528 for reuse
    and lines 545-564 for a regression): write [newVersion], commit and
    push with [reference] in the message, publish the outputs. *)
Definition apply_correction (branch newVersion reference : string) : M unit :=
  ok <- updatePubspecVersion newVersion ;;
  if negb ok then setFailed "Failed to update pubspec.yaml"
  else
    getCurrentVersion ;;
    commitAndPush branch newVersion reference (input_commit_message E)
      (input_git_user_email E) (input_git_user_name E) ;;
    setOutput "version-updated" "true" ;;
    setOutput "new-version" newVersion ;;
    setOutput "current-version" newVersion.

(** The part of [run] that follows the scan (lines 482-565): publish the
    previous and the current version, then accept or correct. *)
Definition reconcile (branch currentVersion : string) (previousVersion : option string)
  : M unit :=
  setOutput "previous-version"
    (match previousVersion with
     | Some (String _ _ as p) => p
     | _ => "none"
     end) ;;
  setOutput "current-version" currentVersion ;;
  match previousVersion with
  | Some (String _ _ as previousVersion) =>
      comparison <- compare currentVersion previousVersion ;;
      if String.eqb currentVersion previousVersion
      then
        warning ("Version reuse detected! Version " ++ currentVersion
                 ++ " was already used in previous commits.") ;;
        apply_correction branch (generateNextVersion (Some currentVersion))
          currentVersion
      else if 0 <? comparison
      then setOutput "version-updated" "false"
      else if comparison <? 0
      then
        warning ("Version " ++ currentVersion
                 ++ " is lower than previous version " ++ previousVersion ++ "!") ;;
        apply_correction branch (generateNextVersion (Some previousVersion))
          previousVersion
      else ret tt
  | _ => setOutput "version-updated" "false"
  end.

(** [run()] *)
Definition run : M unit :=
  try_catch
    (let branch :=
       if JS.truthy (Some (input_branch E)) then input_branch E else "main" in
     if negb (pubspec_exists E)
     then setFailed "pubspec.yaml not found at pubspec.yaml"
     else
       currentVersion <- getCurrentVersion ;;
       match currentVersion with
       | None => setFailed "Could not read version from pubspec.yaml"
       | Some currentVersion =>
           previousVersion <- findPreviousVersion currentVersion ;;
           reconcile branch currentVersion previousVersion
       end)
    (fun message => setFailed ("Action failed: " ++ message)).

(** The state in which a run starts. *)
Definition initial (f : pubspec_file) : state := {| pubspec := f; trace := [] |}.

End Run.

End Action.

(** ** The earlier, token-based revision of the action ([src/index.js],
    second document, lines 584-1053) *)

Module TokenAction.

Import Effect Codec.
Local Open Scope action_scope.

(** The first group of the pattern [/github\.com[\/:](.+?)(?:\.git)?$/] at
    the leftmost place where it matches: the text after [github.com/] or
    [github.com:] up to the end, without a final [.git]. *)
Definition no_line_break (s : string) : bool :=
  Semver.all_chars (fun c => negb ((JS.code c =? 10) || (JS.code c =? 13))) s.

Definition ends_with_git (s : string) : bool :=
  (4 <? String.length s)%nat
  && String.eqb (substring (String.length s - 4) 4 s) ".git".

Definition repo_here (s : string) : option string :=
  if prefix "github.com/" s || prefix "github.com:" s then
    let rest := substring 11 (String.length s - 11) s in
    if Semver.nonempty rest && no_line_break rest
    then Some (if ends_with_git rest
               then substring 0 (String.length rest - 4) rest
               else rest)
    else None
  else None.

Fixpoint match_github_repo (s : string) : option string :=
  match repo_here s with
  | Some repo => Some repo
  | None =>
      match s with
      | String _ r => match_github_repo r
      | EmptyString => None
      end
  end.

Section Run.

Variable E : env.

(** [execGit(args, throwOnError)], lines 703-730 *)
Definition execGit (args : list string) (throwOnError : bool) : M string :=
  t <- get_trace ;;
  let r := exec_git E t args in
  emit (Git args (exitCode r)) ;;
  if negb (exitCode r =? 0) then
    if throwOnError then throw (rejection r)
    else
      warning ("Git command failed: git " ++ JS.join " " args ++ nl
               ++ "Error: " ++ stderr r) ;;
      ret EmptyString
  else ret (JS.trim (stdout r)).

(** [findPreviousVersion(branch, currentVersion)], lines 767-828 *)
Definition findPreviousVersion (currentVersion : string) : M (option string) :=
  History.findPreviousVersion E execGit currentVersion.

(** [configureGit(token)], lines 839-863 *)
Definition configureGit (token : string) : M unit :=
  try_catch
    (execGit ["config"; "--local"; "user.email"; "action@github.com"] true ;;
     execGit ["config"; "--local"; "user.name"; "GitHub Action Auto-Fix"] true ;;
     if JS.truthy (Some token) then
       remoteUrl <- execGit ["config"; "--get"; "remote.origin.url"] false ;;
       match (if JS.truthy (Some remoteUrl) then match_github_repo remoteUrl else None) with
       | Some repo =>
           execGit ["remote"; "set-url"; "origin";
                    "https://x-access-token:" ++ token ++ "@github.com/" ++ repo ++ ".git"]
             true ;;
           ret tt
       | None => ret tt
       end
     else ret tt)
    (fun message =>
       warning ("Failed to configure git: " ++ message) ;; throw message).

Definition default_commit_message (newVersion previousVersion : string) : string :=
  "Auto-increment version to " ++ newVersion ++ nl ++ nl
  ++ "Previous version: " ++ previousVersion ++ nl
  ++ "New version: " ++ newVersion ++ nl
  ++ "Auto-generated by GitHub Actions".

(** [commitAndPush(branch, newVersion, previousVersion, customMessage,
    token)], lines 873-912 *)
Definition commitAndPush (branch newVersion previousVersion customMessage
    token : string) : M unit :=
  try_catch
    (configureGit token ;;
     let commitMessage :=
       if JS.truthy (Some customMessage) then customMessage
       else default_commit_message newVersion previousVersion in
     status <- execGit ["status"; "--porcelain"] false ;;
     if negb (JS.truthy (Some status)) then ret tt
     else
       execGit ["add"; "pubspec.yaml"] true ;;
       execGit ["commit"; "-m"; commitMessage] true ;;
       let tagName := "v" ++ newVersion in
       execGit ["tag"; "-a"; tagName; "-m"; "Release " ++ tagName] true ;;
       execGit ["push"; "origin"; "HEAD:" ++ branch] true ;;
       execGit ["push"; "origin"; tagName] true ;;
       ret tt)
    (fun message =>
       error ("Failed to commit and push: " ++ message) ;; throw message).

Definition compare (currentVersion previousVersion : string) : M Z :=
  match TokenCodec.compareVersions (Some currentVersion) (Some previousVersion) with
  | Some c => ret c
  | None => throw "Invalid Version"
  end.

(** The correction, written out twice in [run] (lines 975-998 and
    1012-1034). *)
Definition apply_correction (branch newVersion reference token : string) : M unit :=
  ok <- Action.updatePubspecVersion E newVersion ;;
  if negb ok then setFailed "Failed to update pubspec.yaml"
  else
    Action.getCurrentVersion ;;
    commitAndPush branch newVersion reference (input_commit_message E) token ;;
    setOutput "version-updated" "true" ;;
    setOutput "new-version" newVersion ;;
    setOutput "current-version" newVersion.

(** The part of [run] that follows the scan (lines 952-1035). *)
Definition reconcile (branch token currentVersion : string)
    (previousVersion : option string) : M unit :=
  setOutput "previous-version"
    (match previousVersion with
     | Some (String _ _ as p) => p
     | _ => "none"
     end) ;;
  setOutput "current-version" currentVersion ;;
  match previousVersion with
  | Some (String _ _ as previousVersion) =>
      comparison <- compare currentVersion previousVersion ;;
      if String.eqb currentVersion previousVersion
      then
        warning ("Version reuse detected! Version " ++ currentVersion
                 ++ " was already used in previous commits.") ;;
        apply_correction branch (generateNextVersion (Some currentVersion))
          currentVersion token
      else if 0 <? comparison
      then setOutput "version-updated" "false"
      else if comparison <? 0
      then
        warning ("Version " ++ currentVersion
                 ++ " is lower than previous version " ++ previousVersion ++ "!") ;;
        apply_correction branch (generateNextVersion (Some previousVersion))
          previousVersion token
      else ret tt
  | _ => setOutput "version-updated" "false"
  end.

(** [run()], lines 917-1041 *)
Definition run : M unit :=
  try_catch
    (let branch :=
       if JS.truthy (Some (input_branch E)) then input_branch E else "main" in
     let token := input_token E in
     if negb (JS.truthy (Some token))
     then setFailed "GitHub token is required. Please provide the token input."
     else if negb (pubspec_exists E)
     then setFailed "pubspec.yaml not found at pubspec.yaml"
     else
       currentVersion <- Action.getCurrentVersion ;;
       match currentVersion with
       | None => setFailed "Could not read version from pubspec.yaml"
       | Some currentVersion =>
           previousVersion <- findPreviousVersion currentVersion ;;
           reconcile branch token currentVersion previousVersion
       end)
    (fun message => setFailed ("Action failed: " ++ message)).

End Run.

End TokenAction.

(** ** Notions used to state the properties *)

(** The first character is [0]. *)
Definition leading_zero (s : string) : bool :=
  match s with
  | String c _ => JS.code c =? 48
  | EmptyString => false
  end.

Definition not_char (sep c : ascii) : bool := negb (Ascii.eqb c sep).

(** [major.minor.patch] as [generateNextVersion] prints it. *)
Definition core_text (a b c : Z) : string :=
  JS.show_Z a ++ "." ++ JS.show_Z b ++ "." ++ JS.show_Z c.

(** The integers that a number holds exactly: those of magnitude at most
    [MAX_SAFE_INTEGER]. *)
Definition safe (n : Z) : Prop := - JS.TWO_53 < n < JS.TWO_53.





(** The characters of [major.minor.patch]. *)
Definition is_core_char (c : ascii) : bool := JS.is_digit c || Ascii.eqb c ".".

(** A version of the data model: four integers. *)
Record Version := {
  v_major : Z;
  v_minor : Z;
  v_patch : Z;
  v_build : Z
}.

(** The components are non-negative and, as integers of JavaScript, at most
    [MAX_SAFE_INTEGER]. *)
Definition representable (v : Version) : Prop :=
  0 <= v_major v <= Semver.MAX_SAFE_INTEGER
  /\ 0 <= v_minor v <= Semver.MAX_SAFE_INTEGER
  /\ 0 <= v_patch v <= Semver.MAX_SAFE_INTEGER
  /\ 0 <= v_build v <= Semver.MAX_SAFE_INTEGER.

(** The text of a version: [major.minor.patch+build], or [major.minor.patch]
    alone, which stands for build 0. *)
Definition format (v : Version) : string :=
  core_text (v_major v) (v_minor v) (v_patch v) ++ String "+" (JS.show_Z (v_build v)).

Definition format_base (v : Version) : string :=
  core_text (v_major v) (v_minor v) (v_patch v).

Inductive text_of : Version -> string -> Prop :=
| text_full (v : Version) : text_of v (format v)
| text_base (v : Version) : v_build v = 0 -> text_of v (format_base v).

(** The order of the data model: major, minor, patch, then build. *)
Definition compare4 (v w : Version) : Z :=
  if negb (v_major v =? v_major w) then Semver.compare_Z (v_major v) (v_major w)
  else if negb (v_minor v =? v_minor w) then Semver.compare_Z (v_minor v) (v_minor w)
  else if negb (v_patch v =? v_patch w) then Semver.compare_Z (v_patch v) (v_patch w)
  else Semver.compare_Z (v_build v) (v_build w).

(** The manifest at a commit as [execGit] returns it: what [git show]
    prints, trimmed, or the empty text when git fails. *)
Definition content_at (E : Effect.env) (commitHash : string) : string :=
  let r := Effect.show E (commitHash ++ ":pubspec.yaml") in
  if negb (Effect.exitCode r =? 0) then EmptyString else JS.trim (Effect.stdout r).

(** What the scan reads at a commit: the version text of the manifest
    there, when the commit identifier is not blank, git shows a manifest
    and its version field is present and not empty. *)
Definition observed (E : Effect.env) (commitHash : string) : option string :=
  if negb (JS.truthy (Some (JS.trim commitHash))) then None
  else if negb (JS.truthy (Some (content_at E commitHash))) then None
  else match Effect.version_at E (content_at E commitHash) with
       | Some (String c v) => Some (String c v)
       | _ => None
       end.

(** The state after the events [new], newest first, were added. *)
Definition after (new : list Effect.event) (s : Effect.state) : Effect.state :=
  {| Effect.pubspec := Effect.pubspec s;
     Effect.trace := (new ++ Effect.trace s)%list |}.

(** The commit shows the current version, or no version at all. *)
Definition same_or_absent (E : Effect.env) (currentVersion commitHash : string) : Prop :=
  observed E commitHash = None \/ observed E commitHash = Some currentVersion.

(** The commit shows a version that is not the current text. *)
Definition differs (E : Effect.env) (currentVersion commitHash version : string) : Prop :=
  observed E commitHash = Some version /\ version <> currentVersion.

(** In how many of the commits the current version is observed. *)
Fixpoint occurrences (E : Effect.env) (currentVersion : string) (l : list string) : nat :=
  match l with
  | [] => 0
  | h :: r =>
      match observed E h with
      | Some v => if String.eqb v currentVersion
                  then S (occurrences E currentVersion r)
                  else occurrences E currentVersion r
      | None => occurrences E currentVersion r
      end
  end.

(** The entries that the scan collects from the commits. *)
Fixpoint found_in (E : Effect.env) (l : list string) : list History.found :=
  match l with
  | [] => []
  | h :: r =>
      match observed E h with
      | Some v => {| History.version := v; History.commit := substring 0 8 h |}
                  :: found_in E r
      | None => found_in E r
      end
  end.

(** The test of the fallback after the loop (line 257). *)
Definition is_different (currentVersion : string) (v : History.found) : bool :=
  negb (String.eqb (History.version v) currentVersion).

(** The push of a version tag: [git push origin v...]. *)
Definition is_tag_push (args : list string) : bool :=
  match args with
  | [a; b; c] => String.eqb a "push" && String.eqb b "origin" && prefix "v" c
  | _ => false
  end.

(** The event of a tag push that failed. *)
Definition tag_push_failed (e : Effect.event) : Prop :=
  match e with
  | Effect.Git args code => is_tag_push args = true /\ code <> 0
  | _ => False
  end.

(** The events of the git plumbing: invocations and log lines. *)
Definition git_or_log (e : Effect.event) : Prop :=
  match e with
  | Effect.Git _ _ | Effect.Log _ _ => True
  | _ => False
  end.

(** The computation leaves the manifest alone and adds only events that
    satisfy [P], whatever its result. *)
Definition adds {A : Type} (P : Effect.event -> Prop) (m : Effect.M A) : Prop :=
  forall s,
    Effect.pubspec (snd (m s)) = Effect.pubspec s
    /\ exists new,
         Effect.trace (snd (m s)) = (new ++ Effect.trace s)%list /\ Forall P new.

(** Git plumbing in which no tag push fails. *)
Definition quiet_event (e : Effect.event) : Prop := git_or_log e /\ ~ tag_push_failed e.

(** A warning that the push of the tag failed. *)
Definition tag_warning (e : Effect.event) : Prop :=
  exists reason, e = Effect.Log Effect.Warning ("Failed to push tag: " ++ reason).

(** The computation is git plumbing in which either no tag push fails, or
    one does, a warning is logged and the computation still returns
    normally. *)
Definition tolerant {A : Type} (m : Effect.M A) : Prop :=
  forall s,
    Effect.pubspec (snd (m s)) = Effect.pubspec s
    /\ exists new,
         Effect.trace (snd (m s)) = (new ++ Effect.trace s)%list
         /\ Forall git_or_log new
         /\ (Forall quiet_event new
             \/ ((exists a, fst (m s) = Effect.Ok a) /\ Exists tag_warning new)).

Definition is_log (e : Effect.event) : Prop :=
  match e with
  | Effect.Log _ _ => True
  | _ => False
  end.

(** The outputs of a first build, oldest first. *)
Definition first_build_outputs (currentVersion : string) : list Effect.event :=
  [Effect.SetOutput "previous-version" "none";
   Effect.SetOutput "current-version" currentVersion;
   Effect.SetOutput "version-updated" "false"].

(** How a piece of the run ends with respect to the push of the tag, given
    the events [new] it added (newest first): either no tag push failed, or
    one did and the piece still returned normally, without marking the run
    as failed, reporting the update and leaving a warning. *)
Definition settled (r : Effect.res unit) (new : list Effect.event) : Prop :=
  Forall (fun e => ~ tag_push_failed e) new
  \/ (r = Effect.Ok tt
      /\ Effect.failed_in new = false
      /\ Effect.output_in "version-updated" new = Some "true"
      /\ Exists tag_warning new).

(** ** Concrete environments, for the examples *)

Definition git_success : Effect.exec_result :=
  {| Effect.exitCode := 0; Effect.stdout := " M pubspec.yaml";
     Effect.stderr := EmptyString; Effect.rejection := EmptyString |}.

Definition git_failure : Effect.exec_result :=
  {| Effect.exitCode := 1; Effect.stdout := EmptyString;
     Effect.stderr := "remote rejected";
     Effect.rejection := "The process 'git' failed with exit code 1" |}.

(** Every git command succeeds. *)
Definition git_all_fine (t : list Effect.event) (args : list string) : Effect.exec_result :=
  git_success.

(** Every git command succeeds, except the push of a tag. *)
Definition git_tag_push_fails (t : list Effect.event) (args : list string)
  : Effect.exec_result :=
  if is_tag_push args then git_failure else git_success.

(** What git answers when the object does not exist. *)
Definition git_missing (object : string) : Effect.exec_result :=
  {| Effect.exitCode := 128; Effect.stdout := EmptyString;
     Effect.stderr := "fatal: invalid object name '" ++ object ++ "'" ++ nl;
     Effect.rejection := "The process 'git' failed with exit code 128" |}.

(** The manifests of the examples have one line, [version: <text>]. *)
Definition manifest (version : string) : string := "version: " ++ version ++ nl.

(** The YAML reader of the examples knows documents of this shape. *)
Definition manifest_version (content : string) : option string :=
  if prefix "version: " content
  then Some (substring 9 (String.length content - 9) content)
  else None.

Fixpoint show_in (history : list (string * option string)) (object : string)
  : Effect.exec_result :=
  match history with
  | [] => git_missing object
  | (h, v) :: r =>
      if String.eqb object (h ++ ":pubspec.yaml") then
        match v with
        | Some version =>
            {| Effect.exitCode := 0; Effect.stdout := manifest version;
               Effect.stderr := EmptyString; Effect.rejection := EmptyString |}
        | None => git_missing object
        end
      else show_in r object
  end.

(** A repository whose branch has the given commits, newest first, each
    with the version of its manifest, or without a manifest; the manifest
    of the working tree is writable. *)
Definition env_with (history : list (string * option string))
    (git : list Effect.event -> list string -> Effect.exec_result) : Effect.env :=
  {| Effect.input_branch := "main";
     Effect.input_commit_message := EmptyString;
     Effect.input_git_user_email := EmptyString;
     Effect.input_git_user_name := EmptyString;
     Effect.input_token := "token";
     Effect.pubspec_exists := true;
     Effect.pubspec_write_error := None;
     Effect.commits := map fst history;
     Effect.show := show_in history;
     Effect.version_at := manifest_version;
     Effect.git := git |}.

(** The trace of [commitAndPush], current revision, when only the push of
    the tag fails. *)
Definition tag_failure_trace : list Effect.event :=
  Eval vm_compute in
    Effect.trace
      (snd (Action.commitAndPush (env_with [] git_tag_push_fails)
              "main" "1.0.6+11" "1.0.5+10" EmptyString EmptyString EmptyString
              (Action.initial (Effect.Document (Some "1.0.6+11"))))).

(** * Properties *)

Example split_plus : JS.split "+" "50.8.47+177" = ["50.8.47"; "177"].
Proof. reflexivity. Qed.
Example parseInt_ex1 : JS.parseInt "  -12ab" = JS.Num (-12).
Proof. reflexivity. Qed.
Example parseInt_ex2 : JS.parseInt "abc" = JS.NaN.
Proof. reflexivity. Qed.
Example parseInt_ex3 : JS.parseInt "9007199254740993" = JS.Num 9007199254740992.
Proof. vm_compute. reflexivity. Qed.
Example parseInt_ex4 : JS.parseInt "9007199254740995" = JS.Num 9007199254740996.
Proof. vm_compute. reflexivity. Qed.
Example add_ex1 : JS.add (JS.Num 9007199254740992) (JS.Num 1) = JS.Num 9007199254740992.
Proof. vm_compute. reflexivity. Qed.
Example to_string_ex1 : JS.to_string (JS.Num 9007199254740992) = "9007199254740992".
Proof. vm_compute. reflexivity. Qed.
Example to_string_ex2 : JS.to_string (JS.parseInt "1152921504606846976") = "1152921504606847000".
Proof. vm_compute. reflexivity. Qed.
Example to_string_ex3 : JS.to_string (JS.parseInt "999999999999999999999") = "1e+21".
Proof. vm_compute. reflexivity. Qed.
Example to_string_ex4 :
  JS.to_string (JS.parseInt "123456789012345678901234567890") = "1.2345678901234568e+29".
Proof. vm_compute. reflexivity. Qed.
Example to_string_ex5 : JS.to_string (JS.Num (-40)) = "-40".
Proof. vm_compute. reflexivity. Qed.
Example show_ex1 : JS.show_Z 9007199254740991 = "9007199254740991".
Proof. reflexivity. Qed.
Example show_ex2 : JS.show_Z (-40) = "-40".
Proof. reflexivity. Qed.
Example show_ex3 : JS.show_Z 0 = "0".
Proof. reflexivity. Qed.
Example trim_ex : JS.trim "  1.0.0 " = "1.0.0".
Proof. reflexivity. Qed.

Example semver_ex1 : Semver.compare "1.0.5" "1.0.3" = Some 1.
Proof. reflexivity. Qed.
Example semver_ex2 : Semver.compare "1.0" "1.0.0" = None.
Proof. reflexivity. Qed.
Example semver_ex3 : Semver.compare "v1.2.3" "1.2.3" = Some 0.
Proof. reflexivity. Qed.
Example semver_ex4 : Semver.compare "1.0.0-alpha.1" "1.0.0-alpha.beta" = Some (-1).
Proof. reflexivity. Qed.
Example semver_ex5 : Semver.compare "1.0.0-rc.1" "1.0.0" = Some (-1).
Proof. reflexivity. Qed.
Example semver_ex6 : Semver.compare "01.0.0" "1.0.0" = None.
Proof. reflexivity. Qed.
Example parse_test_1 :
  Codec.parseFlutterVersion (Some "50.8.47+177")
  = Some (Codec.mk (JS.Num 50) (JS.Num 8) (JS.Num 47) (JS.Num 177) "50.8.47" "50.8.47+177").
Proof. reflexivity. Qed.
Example parse_test_2 :
  Codec.parseFlutterVersion (Some "1.2.3")
  = Some (Codec.mk (JS.Num 1) (JS.Num 2) (JS.Num 3) (JS.Num 0) "1.2.3" "1.2.3").
Proof. reflexivity. Qed.
Example compare_test_1 : Codec.compareVersions (Some "50.8.48+178") (Some "50.8.47+177") = Some 1.
Proof. vm_compute. reflexivity. Qed.
Example compare_test_2 : Codec.compareVersions (Some "50.8.47+176") (Some "50.8.47+177") = Some (-1).
Proof. vm_compute. reflexivity. Qed.
Example compare_test_3 : Codec.compareVersions (Some "50.8.47+177") (Some "50.8.47+177") = Some 0.
Proof. vm_compute. reflexivity. Qed.
Example next_test_1 : Codec.generateNextVersion (Some "50.8.47+177") = "50.8.48+178".
Proof. vm_compute. reflexivity. Qed.
Example next_test_2 : Codec.generateNextVersion (Some "1.2.3") = "1.2.4+1".
Proof. vm_compute. reflexivity. Qed.
Example next_test_3 : Codec.generateNextVersion (Some "1.0.0+x") = "1.0.1+NaN".
Proof. vm_compute. reflexivity. Qed.

(** ** Decimal text: printing and reading back *)

Section DecimalText.

Import JS.

Lemma code_digit_char (d : Z) : 0 <= d <= 9 -> code (digit_char d) = 48 + d.
Proof.
  intros H. unfold code, digit_char.
  rewrite nat_ascii_embedding by lia. lia.
Qed.

Lemma is_digit_digit_char (d : Z) : 0 <= d <= 9 -> is_digit (digit_char d) = true.
Proof.
  intros H. unfold is_digit. rewrite code_digit_char by exact H.
  apply andb_true_intro. split; apply Z.leb_le; lia.
Qed.

Lemma all_chars_app (p : ascii -> bool) (a b : string) :
  Semver.all_chars p (a ++ b) = Semver.all_chars p a && Semver.all_chars p b.
Proof.
  induction a as [|c a IH]; simpl.
  - reflexivity.
  - rewrite IH. apply andb_assoc.
Qed.

Lemma all_chars_impl (p q : ascii -> bool) (s : string) :
  (forall c, p c = true -> q c = true) ->
  Semver.all_chars p s = true -> Semver.all_chars q s = true.
Proof.
  intros Hpq. induction s as [|c s IH]; simpl.
  - reflexivity.
  - intros H. apply andb_prop in H. destruct H as [Hc Hs].
    rewrite (Hpq c Hc), (IH Hs). reflexivity.
Qed.

Lemma read_digits_app (ds r : string) (a : Z) :
  Semver.all_chars is_digit ds = true ->
  read_digits a (ds ++ r) = read_digits (read_digits a ds) r.
Proof.
  revert a. induction ds as [|c ds IH]; simpl; intros a H.
  - reflexivity.
  - apply andb_prop in H. destruct H as [Hc Hds].
    rewrite Hc. apply IH. exact Hds.
Qed.

Lemma append_nil_r (s : string) : s ++ EmptyString = s.
Proof. induction s as [|c s IH]; simpl; [reflexivity | now rewrite IH]. Qed.

Lemma append_assoc (a b c : string) : (a ++ b) ++ c = a ++ (b ++ c).
Proof. induction a as [|x a IH]; simpl; [reflexivity | now rewrite IH]. Qed.

Lemma length_app (a b : string) :
  String.length (a ++ b) = (String.length a + String.length b)%nat.
Proof. induction a as [|x a IH]; simpl; [reflexivity | now rewrite IH]. Qed.

Lemma log2_div10 (n : Z) : 10 <= n -> Z.log2 (n / 10) < Z.log2 n.
Proof.
  intros H.
  assert (H1 : 0 < n / 10) by (apply Z.div_str_pos; lia).
  apply Z.log2_lt_pow2; [exact H1|].
  assert (H2 : 2 ^ Z.log2 n <= n) by (apply Z.log2_spec; lia).
  assert (H3 : n < 2 ^ Z.succ (Z.log2 n)) by (apply Z.log2_spec; lia).
  rewrite Z.pow_succ_r in H3 by (apply Z.log2_nonneg).
  apply Z.div_lt_upper_bound; lia.
Qed.

Lemma show_digits_spec (fuel : nat) :
  forall n acc, 0 <= n -> Z.log2 n <= Z.of_nat fuel ->
  exists ds,
    show_digits fuel n acc = ds ++ acc
    /\ Semver.all_chars is_digit ds = true
    /\ read_digits 0 ds = n
    /\ Semver.nonempty ds = true
    /\ (leading_zero ds = true -> n = 0)
    /\ (String.length ds <= S fuel)%nat.
Proof.
  induction fuel as [|f IH]; intros n acc Hn Hlog.
  - assert (Hsmall : n < 2).
    { destruct (Z.eq_dec n 0) as [->|Hz]; [lia|].
      assert (n < 2 ^ 1) by (apply Z.log2_lt_pow2; lia). lia. }
    exists (String (digit_char (n mod 10)) EmptyString). simpl.
    rewrite Z.mod_small by lia.
    rewrite is_digit_digit_char by lia. rewrite code_digit_char by lia.
    repeat split; first [reflexivity | lia].
  - simpl. destruct (n <? 10) eqn:Hlt.
    + apply Z.ltb_lt in Hlt.
      exists (String (digit_char (n mod 10)) EmptyString). simpl.
      rewrite Z.mod_small by lia.
      rewrite is_digit_digit_char by lia. rewrite code_digit_char by lia.
      repeat split; first [reflexivity | lia].
    + apply Z.ltb_ge in Hlt.
      assert (Hd : 0 <= n mod 10 < 10) by (apply Z.mod_pos_bound; lia).
      assert (Hq : 0 < n / 10) by (apply Z.div_str_pos; lia).
      pose proof (log2_div10 n Hlt) as Hl.
      destruct (IH (n / 10) (String (digit_char (n mod 10)) acc))
        as (ds & Hshow & Hall & Hval & Hne & Hlead & Hlen); [lia | lia |].
      exists (ds ++ String (digit_char (n mod 10)) EmptyString).
      rewrite Hshow, append_assoc. simpl.
      split; [reflexivity|].
      split.
      { rewrite all_chars_app, Hall. simpl.
        rewrite is_digit_digit_char by lia. reflexivity. }
      split.
      { rewrite read_digits_app by exact Hall. rewrite Hval.
        cbn [read_digits].
        rewrite is_digit_digit_char by lia. rewrite code_digit_char by lia.
        pose proof (Z.div_mod n 10 ltac:(lia)). lia. }
      split.
      { destruct ds; [discriminate Hne | reflexivity]. }
      split.
      { destruct ds as [|c ds]; [discriminate Hne|]. simpl. intros H.
        specialize (Hlead H). lia. }
      rewrite length_app. simpl. lia.
Qed.

Lemma show_nonneg_spec (n : Z) :
  0 <= n ->
  Semver.all_chars is_digit (show_nonneg n) = true
  /\ read_digits 0 (show_nonneg n) = n
  /\ Semver.nonempty (show_nonneg n) = true
  /\ (leading_zero (show_nonneg n) = true -> n = 0)
  /\ (Z.of_nat (String.length (show_nonneg n)) <= Z.log2 n + 1).
Proof.
  intros Hn. unfold show_nonneg.
  destruct (show_digits_spec (Z.to_nat (Z.log2 n)) n EmptyString Hn)
    as (ds & Hshow & Hall & Hval & Hne & Hlead & Hlen).
  { rewrite Z2Nat.id by apply Z.log2_nonneg. lia. }
  rewrite Hshow, append_nil_r.
  repeat split; try assumption.
  pose proof (Z.log2_nonneg n). lia.
Qed.

End DecimalText.

(** ** Numbers: rounding, and the range in which nothing is rounded *)

Section Doubles.

Import JS.

Lemma nearest_safe (a : Z) : a < TWO_53 -> nearest a = Some a.
Proof. intros H. unfold nearest. now rewrite (proj2 (Z.ltb_lt _ _) H). Qed.

Lemma of_Z_safe (n : Z) : - TWO_53 < n < TWO_53 -> of_Z n = Num n.
Proof.
  intros H. unfold of_Z. rewrite nearest_safe by lia.
  destruct (n <? 0) eqn:Hneg; f_equal; lia.
Qed.

(** From 2^53 on the nearest double is at least 2^53. *)
Lemma nearest_large (a m : Z) : TWO_53 <= a -> nearest a = Some m -> TWO_53 <= m.
Proof.
  intros Ha. unfold nearest. rewrite (proj2 (Z.ltb_ge _ _) Ha).
  set (e := Z.log2 a - 52). set (q := a / 2 ^ e).
  match goal with
  | |- context [if ?b then q + 1 else q] => set (q' := if b then q + 1 else q)
  end.
  destruct (OVERFLOW <=? q' * 2 ^ e); [discriminate|]. intros [= <-].
  assert (Hlog : 53 <= Z.log2 a).
  { change 53 with (Z.log2 TWO_53). apply Z.log2_le_mono. exact Ha. }
  assert (He : 1 <= e) by (unfold e; lia).
  assert (Hpow : 2 ^ Z.log2 a <= a) by (apply Z.log2_spec; unfold TWO_53 in Ha; lia).
  assert (Hsplit : 2 ^ Z.log2 a = 2 ^ 52 * 2 ^ e).
  { rewrite <- Z.pow_add_r by lia. f_equal. unfold e. lia. }
  assert (Hpos : 0 < 2 ^ e) by (apply Z.pow_pos_nonneg; lia).
  assert (Hq : 2 ^ 52 <= q).
  { unfold q. apply Z.div_le_lower_bound; [exact Hpos|]. rewrite Z.mul_comm. lia. }
  assert (Hq' : q <= q') by (subst q'; cbv beta; match goal with |- context [if ?b then _ else _] => destruct b end; lia).
  assert (H2 : 2 ^ 1 <= 2 ^ e) by (apply Z.pow_le_mono_r; lia).
  change (2 ^ 1) with 2 in H2. change (2 ^ 52) with 4503599627370496 in *.
  unfold TWO_53. nia.
Qed.

(** Below 2^53 a decimal value is read as a double only if it is that
    double. *)
Lemma reads_as_safe (m v : Z) : m < TWO_53 -> reads_as m v = true -> v = m.
Proof.
  intros Hm. unfold reads_as. destruct (nearest v) as [x|] eqn:Hx; [|discriminate].
  intros H. apply Z.eqb_eq in H. subst x.
  destruct (Z.lt_ge_cases v TWO_53) as [Hv | Hv].
  - rewrite nearest_safe in Hx by exact Hv. now injection Hx.
  - pose proof (nearest_large v m Hv Hx). lia.
Qed.

Lemma shortest_safe (fuel : nat) (m : Z) :
  m < TWO_53 -> forall j, fst (shortest fuel m j) * 10 ^ snd (shortest fuel m j) = m.
Proof.
  intros Hm. induction fuel as [|f IH]; intros j; cbn [shortest].
  - destruct (reads_as m (m / 10 ^ j * 10 ^ j)) eqn:Hlo;
      destruct (reads_as m ((m / 10 ^ j + 1) * 10 ^ j)) eqn:Hhi;
      try apply (reads_as_safe m _ Hm) in Hlo;
      try apply (reads_as_safe m _ Hm) in Hhi;
      repeat match goal with |- context [if ?b then _ else _] => destruct b end;
      cbn [fst snd]; try assumption. lia.
  - destruct (reads_as m (m / 10 ^ j * 10 ^ j)) eqn:Hlo;
      destruct (reads_as m ((m / 10 ^ j + 1) * 10 ^ j)) eqn:Hhi;
      try apply (reads_as_safe m _ Hm) in Hlo;
      try apply (reads_as_safe m _ Hm) in Hhi;
      repeat match goal with |- context [if ?b then _ else _] => destruct b end;
      cbn [fst snd]; try assumption. apply IH.
Qed.

(** Below 2^53 a number prints as its decimal text. *)
Lemma show_double_safe (m : Z) : m < TWO_53 -> show_double m = show_nonneg m.
Proof.
  intros Hm. unfold show_double.
  pose proof (shortest_safe (Z.to_nat (digits m - 1)) m Hm (digits m - 1)) as H.
  destruct (shortest _ m _) as [s j]. cbn [fst snd] in H. rewrite H.
  replace (m <? 10 ^ 21) with true; [reflexivity|].
  symmetry. apply Z.ltb_lt. change (10 ^ 21) with 1000000000000000000000.
  unfold TWO_53 in Hm. lia.
Qed.

Lemma to_string_safe (n : Z) : - TWO_53 < n < TWO_53 -> to_string (Num n) = show_Z n.
Proof.
  intros H. unfold to_string, show_Z.
  destruct (n =? 0) eqn:Hz.
  - apply Z.eqb_eq in Hz. subst n. reflexivity.
  - destruct (n <? 0); rewrite show_double_safe by lia; reflexivity.
Qed.

(** Adding one is exact below 2^53 - 1. *)
Lemma add_one_safe (n : Z) :
  - TWO_53 < n -> n + 1 < TWO_53 -> add (Num n) (Num 1) = Num (n + 1).
Proof. intros H1 H2. cbn [add]. apply of_Z_safe. lia. Qed.



End Doubles.

Section NumberText.

Import JS.

Lemma digit_not_space (c : ascii) : is_digit c = true -> is_space c = false.
Proof. unfold is_digit, is_space. lia. Qed.

Lemma digit_not_char (sep c : ascii) :
  is_digit sep = false -> is_digit c = true -> not_char sep c = true.
Proof.
  intros Hsep Hc. unfold not_char.
  destruct (Ascii.eqb_spec c sep) as [->|]; [congruence | reflexivity].
Qed.

Lemma digits_without (sep : ascii) (s : string) :
  is_digit sep = false ->
  Semver.all_chars is_digit s = true -> Semver.all_chars (not_char sep) s = true.
Proof.
  intros Hsep. apply all_chars_impl. intros c. apply digit_not_char. exact Hsep.
Qed.

Lemma parseInt_digits (ds : string) :
  Semver.all_chars is_digit ds = true -> Semver.nonempty ds = true ->
  parseInt ds = of_Z (read_digits 0 ds).
Proof.
  intros Hall Hne. destruct ds as [|c r]; [discriminate Hne|].
  simpl in Hall. apply andb_prop in Hall. destruct Hall as [Hc Hr].
  unfold parseInt. cbn [skip_space]. rewrite (digit_not_space c Hc).
  assert (H1 : Ascii.eqb c "-" = false).
  { pose proof (digit_not_char "-" c eq_refl Hc) as H. unfold not_char in H.
    now destruct (Ascii.eqb c "-"). }
  assert (H2 : Ascii.eqb c "+" = false).
  { pose proof (digit_not_char "+" c eq_refl Hc) as H. unfold not_char in H.
    now destruct (Ascii.eqb c "+"). }
  rewrite H1, H2. cbn [starts_with_digit]. rewrite Hc. reflexivity.
Qed.

(** Reading a decimal text gives the number nearest to the integer. *)
Lemma parseInt_show_Z (n : Z) : parseInt (show_Z n) = of_Z n.
Proof.
  unfold show_Z. destruct (n <? 0) eqn:Hneg.
  - apply Z.ltb_lt in Hneg.
    destruct (show_nonneg_spec (- n)) as (Hall & Hval & Hne & _); [lia|].
    destruct (show_nonneg (- n)) as [|c r] eqn:Hs; [discriminate Hne|].
    unfold parseInt.
    change (skip_space (String "-" (String c r))) with (String "-"%char (String c r)).
    cbv iota beta. rewrite Ascii.eqb_refl. cbn [starts_with_digit].
    simpl in Hall. apply andb_prop in Hall. destruct Hall as [Hc Hr].
    rewrite Hc. f_equal. rewrite Hval. lia.
  - apply Z.ltb_ge in Hneg.
    destruct (show_nonneg_spec n Hneg) as (Hall & Hval & Hne & _).
    rewrite parseInt_digits by assumption. now rewrite Hval.
Qed.

Lemma parseInt_show_safe (n : Z) : - TWO_53 < n < TWO_53 -> parseInt (show_Z n) = Num n.
Proof. intros H. rewrite parseInt_show_Z. now apply of_Z_safe. Qed.

Lemma show_Z_nonempty (n : Z) : Semver.nonempty (show_Z n) = true.
Proof.
  unfold show_Z. destruct (n <? 0) eqn:Hneg; [reflexivity|].
  apply Z.ltb_ge in Hneg. now destruct (show_nonneg_spec n Hneg) as (_ & _ & Hne & _).
Qed.

Lemma show_Z_truthy (n : Z) : truthy (Some (show_Z n)) = true.
Proof. pose proof (show_Z_nonempty n) as H. now destruct (show_Z n). Qed.

(** The decimal text of an integer has no occurrence of a separator of
    the version syntax. *)
Lemma show_Z_without (sep : ascii) (n : Z) :
  is_digit sep = false -> Ascii.eqb "-" sep = false ->
  Semver.all_chars (not_char sep) (show_Z n) = true.
Proof.
  intros Hsep Hminus. unfold show_Z. destruct (n <? 0) eqn:Hneg.
  - apply Z.ltb_lt in Hneg.
    destruct (show_nonneg_spec (- n)) as (Hall & _); [lia|].
    cbn [Semver.all_chars]. unfold not_char at 1. rewrite Hminus.
    apply (digits_without sep _ Hsep Hall).
  - apply Z.ltb_ge in Hneg.
    destruct (show_nonneg_spec n Hneg) as (Hall & _).
    apply (digits_without sep _ Hsep Hall).
Qed.

Lemma split_none (sep : ascii) (s : string) :
  Semver.all_chars (not_char sep) s = true -> split sep s = [s].
Proof.
  induction s as [|c s IH]; simpl; intros H.
  - reflexivity.
  - apply andb_prop in H. destruct H as [Hc Hs].
    unfold not_char in Hc. apply negb_true_iff in Hc. rewrite Hc.
    rewrite (IH Hs). reflexivity.
Qed.

Lemma split_cons (sep : ascii) (a b : string) :
  Semver.all_chars (not_char sep) a = true ->
  split sep (a ++ String sep b) = a :: split sep b.
Proof.
  induction a as [|c a IH]; simpl; intros H.
  - rewrite Ascii.eqb_refl. reflexivity.
  - apply andb_prop in H. destruct H as [Hc Ha].
    unfold not_char in Hc. apply negb_true_iff in Hc. rewrite Hc.
    rewrite (IH Ha). reflexivity.
Qed.

Lemma split_nonempty (sep : ascii) (s : string) : split sep s <> [].
Proof.
  destruct s as [|c s]; simpl; [discriminate|].
  destruct (Ascii.eqb c sep); [discriminate|].
  destruct (split sep s); discriminate.
Qed.

End NumberText.

(** ** The version codec *)

Section CodecFacts.

Import JS Codec.

Lemma parse_unfold (s : string) :
  Semver.nonempty s = true ->
  parseFlutterVersion (Some s)
  = Some {| major := or_zero (parseInt_opt (nth_error (split "." (hd EmptyString (split "+" s))) 0));
            minor := or_zero (parseInt_opt (nth_error (split "." (hd EmptyString (split "+" s))) 1));
            patch := or_zero (parseInt_opt (nth_error (split "." (hd EmptyString (split "+" s))) 2));
            build := if truthy (nth_error (split "+" s) 1)
                     then parseInt_opt (nth_error (split "+" s) 1)
                     else Num 0;
            base := hd EmptyString (split "+" s);
            full := s |}.
Proof. destruct s; [discriminate | reflexivity]. Qed.

Lemma parse_none (v : option string) :
  parseFlutterVersion v = None <-> v = None \/ v = Some EmptyString.
Proof.
  split.
  - destruct v as [[|c s]|]; simpl; intros H; try discriminate; auto.
  - intros [-> | ->]; reflexivity.
Qed.

Lemma core_text_without_plus (a b c : Z) :
  Semver.all_chars (not_char "+") (core_text a b c) = true.
Proof.
  unfold core_text. rewrite !all_chars_app.
  rewrite !(show_Z_without "+") by reflexivity. reflexivity.
Qed.

Lemma core_text_nonempty (a b c : Z) (t : string) :
  Semver.nonempty (core_text a b c ++ t) = true.
Proof.
  unfold core_text. pose proof (show_Z_nonempty a) as H.
  destruct (show_Z a); [discriminate H | reflexivity].
Qed.

Lemma split_core_text (a b c : Z) :
  split "." (core_text a b c) = [show_Z a; show_Z b; show_Z c].
Proof.
  unfold core_text.
  change ("." ++ show_Z b ++ "." ++ show_Z c)
    with (String "."%char (show_Z b ++ String "."%char (show_Z c))).
  rewrite split_cons by (apply show_Z_without; reflexivity).
  rewrite split_cons by (apply show_Z_without; reflexivity).
  rewrite split_none by (apply show_Z_without; reflexivity).
  reflexivity.
Qed.

(** A text that starts with [a.b.c] and either ends there or goes on with
    [+]: the three numbers and the base are read back. *)
Lemma parse_core_text (a b c : Z) (suffix : string) (parts : list string) :
  safe a -> safe b -> safe c ->
  split "+" (core_text a b c ++ suffix) = core_text a b c :: parts ->
  exists p,
    parseFlutterVersion (Some (core_text a b c ++ suffix)) = Some p
    /\ major p = Num a /\ minor p = Num b /\ patch p = Num c
    /\ base p = core_text a b c
    /\ build p = (if truthy (nth_error parts 0)
                  then parseInt_opt (nth_error parts 0) else Num 0).
Proof.
  intros Ha Hb Hc Hsplit. eexists. split.
  - apply parse_unfold. apply core_text_nonempty.
  - rewrite Hsplit. cbn [hd major minor patch base build nth_error].
    rewrite split_core_text. cbn [nth_error parseInt_opt].
    rewrite !parseInt_show_safe by assumption. repeat split; reflexivity.
Qed.

Lemma split_core_suffix (a b c : Z) (suffix : string) :
  suffix = EmptyString \/ (exists t, suffix = String "+" t) ->
  exists parts, split "+" (core_text a b c ++ suffix) = core_text a b c :: parts.
Proof.
  intros [-> | [t ->]].
  - exists []. rewrite append_nil_r. apply split_none, core_text_without_plus.
  - exists (split "+" t). apply split_cons, core_text_without_plus.
Qed.

(** What [generateNextVersion] prints when the three numbers of the base
    are in the exact range: the base with the patch advanced, [+], and the
    text of the build plus one. *)
Lemma next_text (s : string) (p : version) (a b c : Z) :
  parseFlutterVersion (Some s) = Some p ->
  major p = Num a -> minor p = Num b -> patch p = Num c ->
  safe a -> safe b -> safe c -> safe (c + 1) ->
  generateNextVersion (Some s)
  = core_text a b (c + 1) ++ String "+" (to_string (add (build p) (Num 1))).
Proof.
  intros Hp Ha Hb Hc Sa Sb Sc Sc1. unfold generateNextVersion. rewrite Hp. cbv zeta.
  rewrite Ha, Hb, Hc. rewrite add_one_safe by (unfold safe in *; lia).
  rewrite !to_string_safe by assumption.
  unfold core_text. rewrite !append_assoc. reflexivity.
Qed.

(** The text of four numbers of the exact range is read back as these
    numbers. *)
Lemma parse_format (v : Version) :
  safe (v_major v) -> safe (v_minor v) -> safe (v_patch v) -> safe (v_build v) ->
  parseFlutterVersion (Some (format v))
  = Some {| major := Num (v_major v); minor := Num (v_minor v);
            patch := Num (v_patch v); build := Num (v_build v);
            base := format_base v; full := format v |}.
Proof.
  intros Ha Hb Hc Hd. unfold format, format_base.
  rewrite parse_unfold by apply core_text_nonempty.
  rewrite split_cons by apply core_text_without_plus.
  rewrite (split_none "+" (show_Z (v_build v))) by (apply show_Z_without; reflexivity).
  cbn [hd nth_error]. rewrite split_core_text. cbn [nth_error parseInt_opt].
  rewrite !parseInt_show_safe by assumption. rewrite show_Z_truthy.
  reflexivity.
Qed.

Lemma representable_safe (v : Version) :
  representable v ->
  safe (v_major v) /\ safe (v_minor v) /\ safe (v_patch v) /\ safe (v_build v).
Proof. unfold representable, safe, Semver.MAX_SAFE_INTEGER, TWO_53. lia. Qed.

Lemma parse_text_of (v : Version) (s : string) :
  representable v -> text_of v s ->
  exists p,
    parseFlutterVersion (Some s) = Some p
    /\ major p = Num (v_major v) /\ minor p = Num (v_minor v) /\ patch p = Num (v_patch v)
    /\ build p = Num (v_build v)
    /\ base p = core_text (v_major v) (v_minor v) (v_patch v).
Proof.
  intros Hv Hs. destruct (representable_safe v Hv) as (Sa & Sb & Sc & Sd).
  destruct Hs as [w | w Hzero].
  - eexists. split; [now apply parse_format|]. repeat split; reflexivity.
  - destruct (parse_core_text (v_major w) (v_minor w) (v_patch w) EmptyString [] Sa Sb Sc)
      as (p & Hp & Ha & Hb & Hc & Hbase & Hbuild).
    { rewrite append_nil_r. apply split_none, core_text_without_plus. }
    unfold format_base. rewrite append_nil_r in Hp.
    exists p. repeat split; try assumption.
    rewrite Hbuild, Hzero. reflexivity.
Qed.

End CodecFacts.

(** C7, as amended.  For an input that does not parse, which is [null] or
    the empty string, [generateNextVersion] returns the bootstrap version
    [1.0.0+1].  For an input whose four parsed components are integers that
    numbers hold exactly, up to and including the incremented patch and
    build, the result is the text of the same major and minor, the patch
    plus one and the build plus one, and reading it back gives these four
    numbers. *)
Theorem generateNextVersion_increments :
  (forall previousVersion : option string,
     Codec.parseFlutterVersion previousVersion = None ->
     (previousVersion = None \/ previousVersion = Some EmptyString)
     /\ Codec.generateNextVersion previousVersion = "1.0.0+1")
  /\ forall (s : string) (parsed : Codec.version) (a b c d : Z),
       Codec.parseFlutterVersion (Some s) = Some parsed ->
       Codec.major parsed = JS.Num a -> Codec.minor parsed = JS.Num b ->
       Codec.patch parsed = JS.Num c -> Codec.build parsed = JS.Num d ->
       safe a -> safe b -> safe c -> safe (c + 1) -> safe d -> safe (d + 1) ->
       let next := {| v_major := a; v_minor := b; v_patch := c + 1; v_build := d + 1 |} in
       Codec.generateNextVersion (Some s) = format next
       /\ Codec.parseFlutterVersion (Some (Codec.generateNextVersion (Some s)))
          = Some (Codec.mk (JS.Num a) (JS.Num b) (JS.Num (c + 1)) (JS.Num (d + 1))
                    (format_base next) (format next)).
Proof.
  split.
  - intros previousVersion Hnone. split; [now apply parse_none|].
    unfold Codec.generateNextVersion. now rewrite Hnone.
  - intros s parsed a b c d Hp Ha Hb Hc Hd Sa Sb Sc Sc1 Sd Sd1 next.
    assert (Htext : Codec.generateNextVersion (Some s) = format next).
    { rewrite (next_text s parsed a b c) by assumption.
      rewrite Hd, add_one_safe by (unfold safe in *; lia).
      rewrite to_string_safe by assumption. reflexivity. }
    split; [exact Htext|]. rewrite Htext. now apply parse_format.
Qed.

Lemma generateNextVersion_increments_witness :
  Codec.generateNextVersion (Some "50.8.47+177") = "50.8.48+178"
  /\ Codec.parseFlutterVersion (Some (Codec.generateNextVersion (Some "50.8.47+177")))
     = Some (Codec.mk (JS.Num 50) (JS.Num 8) (JS.Num 48) (JS.Num 178) "50.8.48" "50.8.48+178").
Proof.
  apply (proj2 generateNextVersion_increments "50.8.47+177"
           (Codec.mk (JS.Num 50) (JS.Num 8) (JS.Num 47) (JS.Num 177) "50.8.47" "50.8.47+177")
           50 8 47 177); try reflexivity; unfold safe, JS.TWO_53; lia.
Defined.

(** C7, counterexample.  From 2^53 on adding one to a number is no longer
    exact: the build counter 9007199254740992 is not incremented (while the
    patch is), and reading the result back gives the same build. *)
Lemma generateNextVersion_increments_counterexample :
  exists parsed next,
    Codec.parseFlutterVersion (Some "1.2.3+9007199254740992") = Some parsed
    /\ Codec.build parsed = JS.Num 9007199254740992
    /\ Codec.generateNextVersion (Some "1.2.3+9007199254740992") = "1.2.4+9007199254740992"
    /\ Codec.parseFlutterVersion (Some "1.2.4+9007199254740992") = Some next
    /\ Codec.patch next = JS.Num 4
    /\ Codec.build next = Codec.build parsed.
Proof.
  do 2 eexists.
  split; [vm_compute; reflexivity|].
  split; [reflexivity|].
  split; [vm_compute; reflexivity|].
  split; [vm_compute; reflexivity|].
  split; reflexivity.
Qed.

Section ParseInvariant.

Import JS Codec.






Lemma or_zero_num (n : Z) : or_zero (Num n) = Num n.
Proof. reflexivity. Qed.



End ParseInvariant.




(** The build suffix is the one component that is read without [|| 0]: a
    suffix that is not a number stays [NaN], where the same text in the base
    would count as 0. *)
Lemma build_suffix_is_not_guarded :
  (exists p, Codec.parseFlutterVersion (Some "1.2.3+beta") = Some p
             /\ Codec.build p = JS.NaN)
  /\ (exists p, Codec.parseFlutterVersion (Some "1.2.beta+4") = Some p
                /\ Codec.patch p = JS.Num 0).
Proof. split; eexists; split; reflexivity. Qed.

(** ** [semver.compare] on plain [major.minor.patch] texts *)

Section SemverFacts.

Import JS.

Lemma trim_id (s : string) :
  Semver.all_chars (fun c => negb (is_space c)) s = true -> trim s = s.
Proof.
  intros H. unfold trim.
  assert (Hskip : skip_space s = s).
  { destruct s as [|c r]; [reflexivity|]. simpl in H |- *.
    apply andb_prop in H. destruct H as [Hc _].
    apply negb_true_iff in Hc. now rewrite Hc. }
  rewrite Hskip. induction s as [|c r IH]; [reflexivity|].
  simpl in H. apply andb_prop in H. destruct H as [Hc Hr].
  apply negb_true_iff in Hc. cbn [drop_space_end all_space]. rewrite Hc.
  cbn [andb]. f_equal. apply IH; [exact Hr|].
  destruct r as [|c' r']; [reflexivity|]. simpl in Hr |- *.
  apply andb_prop in Hr. destruct Hr as [Hc' _].
  apply negb_true_iff in Hc'. now rewrite Hc'.
Qed.

Lemma cut_none (sep : ascii) (s : string) :
  Semver.all_chars (not_char sep) s = true -> Semver.cut sep s = (s, None).
Proof.
  induction s as [|c s IH]; simpl; intros H.
  - reflexivity.
  - apply andb_prop in H. destruct H as [Hc Hs].
    unfold not_char in Hc. apply negb_true_iff in Hc. rewrite Hc.
    rewrite (IH Hs). reflexivity.
Qed.

Lemma strip_v_digit (s : string) : starts_with_digit s = true -> Semver.strip_v s = s.
Proof.
  destruct s as [|c r]; [reflexivity|]. simpl. intros Hc.
  destruct (Ascii.eqb_spec c "v") as [->|]; [discriminate Hc | reflexivity].
Qed.

Lemma show_Z_nonneg (n : Z) : 0 <= n -> show_Z n = show_nonneg n.
Proof. intros H. unfold show_Z. now rewrite (proj2 (Z.ltb_ge n 0) H). Qed.

Lemma show_Z_digits (n : Z) : 0 <= n -> Semver.all_chars is_digit (show_Z n) = true.
Proof.
  intros H. rewrite show_Z_nonneg by exact H. now destruct (show_nonneg_spec n H).
Qed.

Lemma core_chars (a b c : Z) :
  0 <= a -> 0 <= b -> 0 <= c ->
  Semver.all_chars is_core_char (core_text a b c) = true.
Proof.
  intros Ha Hb Hc. unfold core_text. rewrite !all_chars_app.
  assert (Hd : forall n, 0 <= n -> Semver.all_chars is_core_char (show_Z n) = true).
  { intros n Hn. apply (all_chars_impl is_digit); [|apply show_Z_digits, Hn].
    intros ch Hch. unfold is_core_char. now rewrite Hch. }
  rewrite !Hd by assumption. reflexivity.
Qed.

Lemma core_char_cases (c : ascii) :
  is_core_char c = true ->
  negb (is_space c) = true /\ not_char "+" c = true /\ not_char "-" c = true.
Proof.
  unfold is_core_char. intros H. apply orb_prop in H. destruct H as [H | H].
  - rewrite (digit_not_space c H).
    rewrite (digit_not_char "+" c eq_refl H), (digit_not_char "-" c eq_refl H). auto.
  - apply Ascii.eqb_eq in H. subst c. repeat split; reflexivity.
Qed.

Lemma core_starts_with_digit (a b c : Z) :
  0 <= a -> starts_with_digit (core_text a b c) = true.
Proof.
  intros Ha. unfold core_text. rewrite show_Z_nonneg by exact Ha.
  destruct (show_nonneg_spec a Ha) as (Hall & _ & Hne & _).
  destruct (show_nonneg a) as [|ch r]; [discriminate Hne|].
  simpl in Hall |- *. now apply andb_prop in Hall.
Qed.

Lemma show_Z_length (n : Z) :
  0 <= n <= Semver.MAX_SAFE_INTEGER -> (String.length (show_Z n) <= 53)%nat.
Proof.
  intros [H0 H1]. rewrite show_Z_nonneg by exact H0.
  destruct (show_nonneg_spec n H0) as (_ & _ & _ & _ & Hlen).
  assert (Hlog : Z.log2 n <= 52).
  { change 52 with (Z.log2 Semver.MAX_SAFE_INTEGER). apply Z.log2_le_mono. exact H1. }
  lia.
Qed.

Lemma show_Z_numeric_identifier (n : Z) :
  0 <= n -> Semver.numeric_identifier (show_Z n) = true.
Proof.
  intros H. rewrite show_Z_nonneg by exact H.
  destruct (show_nonneg_spec n H) as (Hall & _ & Hne & Hlead & _).
  destruct (Z.eq_dec n 0) as [->|Hnz]; [reflexivity|].
  destruct (show_nonneg n) as [|ch r]; [discriminate Hne|].
  simpl in Hall, Hlead |- *. apply andb_prop in Hall. destruct Hall as [Hch Hr].
  rewrite Hch, Hr. destruct (code ch =? 48); [|reflexivity].
  exfalso. apply Hnz, Hlead. reflexivity.
Qed.

Lemma show_Z_value (n : Z) : 0 <= n -> read_digits 0 (show_Z n) = n.
Proof.
  intros H. rewrite show_Z_nonneg by exact H. now destruct (show_nonneg_spec n H) as (_ & Hv & _).
Qed.

(** [new SemVer("a.b.c")] for representable numbers. *)
Lemma semver_parse_core (a b c : Z) :
  0 <= a <= Semver.MAX_SAFE_INTEGER ->
  0 <= b <= Semver.MAX_SAFE_INTEGER ->
  0 <= c <= Semver.MAX_SAFE_INTEGER ->
  Semver.parse (core_text a b c) = Some (Semver.mk a b c []).
Proof.
  intros Ha Hb Hc. unfold Semver.parse.
  assert (Hlen : (Semver.MAX_LENGTH <? String.length (core_text a b c))%nat = false).
  { apply Nat.ltb_ge. unfold core_text. rewrite !length_app.
    pose proof (show_Z_length a Ha). pose proof (show_Z_length b Hb).
    pose proof (show_Z_length c Hc). unfold Semver.MAX_LENGTH. simpl String.length. lia. }
  rewrite Hlen.
  pose proof (core_chars a b c (proj1 Ha) (proj1 Hb) (proj1 Hc)) as Hchars.
  rewrite trim_id
    by (apply (all_chars_impl is_core_char); [intros ch Hch; apply core_char_cases, Hch | exact Hchars]).
  rewrite strip_v_digit by (apply core_starts_with_digit, Ha).
  rewrite cut_none
    by (apply (all_chars_impl is_core_char); [intros ch Hch; apply core_char_cases, Hch | exact Hchars]).
  rewrite cut_none
    by (apply (all_chars_impl is_core_char); [intros ch Hch; apply core_char_cases, Hch | exact Hchars]).
  rewrite split_core_text.
  rewrite !show_Z_numeric_identifier by lia.
  rewrite !show_Z_value by lia.
  cbn [Semver.valid_build Semver.parse_prerelease andb].
  destruct Ha as [_ Ha], Hb as [_ Hb], Hc as [_ Hc].
  apply Z.leb_le in Ha, Hb, Hc. rewrite Ha, Hb, Hc. reflexivity.
Qed.

Lemma semver_compare_core (a b c a' b' c' : Z) :
  0 <= a <= Semver.MAX_SAFE_INTEGER ->
  0 <= b <= Semver.MAX_SAFE_INTEGER ->
  0 <= c <= Semver.MAX_SAFE_INTEGER ->
  0 <= a' <= Semver.MAX_SAFE_INTEGER ->
  0 <= b' <= Semver.MAX_SAFE_INTEGER ->
  0 <= c' <= Semver.MAX_SAFE_INTEGER ->
  Semver.compare (core_text a b c) (core_text a' b' c')
  = Some (Semver.compare_main (Semver.mk a b c []) (Semver.mk a' b' c' [])).
Proof.
  intros. unfold Semver.compare. rewrite !semver_parse_core by assumption.
  unfold Semver.compare_pre. cbn [Semver.prerelease].
  now destruct (Semver.compare_main _ _ =? 0) eqn:E; [apply Z.eqb_eq in E; rewrite E|].
Qed.

End SemverFacts.

(** ** [compareVersions] and [generateNextVersion] on version texts *)

Section CompareFacts.

Import JS Codec.

Lemma compare_main_then_build (a b c d a' b' c' d' : Z) :
  (let cm := Semver.compare_main (Semver.mk a b c []) (Semver.mk a' b' c' []) in
   if negb (cm =? 0) then Some cm
   else if gt (Num d) (Num d') then Some 1
   else if lt (Num d) (Num d') then Some (-1)
   else Some 0)
  = Some (compare4 (Build_Version a b c d) (Build_Version a' b' c' d')).
Proof.
  unfold Semver.compare_main, compare4, Semver.compare_Z, gt, lt.
  cbn [Semver.major Semver.minor Semver.patch v_major v_minor v_patch v_build].
  destruct (a =? a') eqn:Ea; destruct (b =? b') eqn:Eb; destruct (c =? c') eqn:Ec;
    cbn [negb];
    repeat match goal with
           | |- context [?x <? ?y] => destruct (x <? y) eqn:?
           end; cbn; try reflexivity; lia.
Qed.

(** On the texts of representable versions, [compareVersions] of lines
    37-54 returns, and it is the order of the data model. *)
Lemma compareVersions_formatted (v w : Version) (s t : string) :
  representable v -> representable w -> text_of v s -> text_of w t ->
  compareVersions (Some s) (Some t) = Some (compare4 v w).
Proof.
  intros Hv Hw Hs Ht.
  destruct (parse_text_of v s Hv Hs) as (p & Hp & _ & _ & _ & Hpb & Hpbase).
  destruct (parse_text_of w t Hw Ht) as (q & Hq & _ & _ & _ & Hqb & Hqbase).
  destruct Hv as (Hv1 & Hv2 & Hv3 & Hv4), Hw as (Hw1 & Hw2 & Hw3 & Hw4).
  unfold compareVersions. rewrite Hp, Hq, Hpbase, Hqbase, Hpb, Hqb.
  rewrite semver_compare_core by assumption.
  destruct v, w. apply compare_main_then_build.
Qed.

(** The same for the copy of lines 619-636, whose last comparison is [<=]:
    equal versions come out as [-1]. *)
Lemma token_compareVersions_formatted (v w : Version) (s t : string) :
  representable v -> representable w -> text_of v s -> text_of w t ->
  TokenCodec.compareVersions (Some s) (Some t)
  = Some (if compare4 v w =? 0 then -1 else compare4 v w).
Proof.
  intros Hv Hw Hs Ht.
  destruct (parse_text_of v s Hv Hs) as (p & Hp & _ & _ & _ & Hpb & Hpbase).
  destruct (parse_text_of w t Hw Ht) as (q & Hq & _ & _ & _ & Hqb & Hqbase).
  destruct Hv as (Hv1 & Hv2 & Hv3 & Hv4), Hw as (Hw1 & Hw2 & Hw3 & Hw4).
  unfold TokenCodec.compareVersions. rewrite Hp, Hq, Hpbase, Hqbase, Hpb, Hqb.
  rewrite semver_compare_core by assumption.
  destruct v as [a b c d], w as [a' b' c' d'].
  unfold Semver.compare_main, compare4, Semver.compare_Z, gt, le, lt.
  cbn [Semver.major Semver.minor Semver.patch v_major v_minor v_patch v_build].
  destruct (a =? a') eqn:Ea; destruct (b =? b') eqn:Eb; destruct (c =? c') eqn:Ec;
    cbn [negb];
    repeat match goal with
           | |- context [?x <? ?y] => destruct (x <? y) eqn:?
           end; cbn; try reflexivity; lia.
Qed.

Lemma compare4_refl (v : Version) : compare4 v v = 0.
Proof.
  unfold compare4, Semver.compare_Z. rewrite !Z.eqb_refl, !Z.ltb_irrefl. reflexivity.
Qed.

Lemma compare4_zero (v w : Version) : compare4 v w = 0 <-> v = w.
Proof.
  split; [|intros ->; apply compare4_refl].
  destruct v as [a b c d], w as [a' b' c' d'].
  unfold compare4, Semver.compare_Z. cbn [v_major v_minor v_patch v_build].
  destruct (a =? a') eqn:Ea; destruct (b =? b') eqn:Eb; destruct (c =? c') eqn:Ec;
    cbn [negb];
    repeat match goal with
           | |- context [?x <? ?y] => destruct (x <? y) eqn:?
           end; intros H; try discriminate H;
    f_equal; lia.
Qed.

Lemma compare4_antisym (v w : Version) : compare4 w v = - compare4 v w.
Proof.
  destruct v as [a b c d], w as [a' b' c' d'].
  unfold compare4, Semver.compare_Z. cbn [v_major v_minor v_patch v_build].
  destruct (a =? a') eqn:Ea; destruct (b =? b') eqn:Eb; destruct (c =? c') eqn:Ec;
    destruct (a' =? a) eqn:Ea'; destruct (b' =? b) eqn:Eb'; destruct (c' =? c) eqn:Ec';
    try lia; cbn [negb];
    repeat match goal with
           | |- context [?x <? ?y] => destruct (x <? y) eqn:?
           end; try reflexivity; lia.
Qed.

Lemma compare4_less (v w : Version) :
  compare4 v w = -1 <->
  v_major v < v_major w
  \/ (v_major v = v_major w /\ v_minor v < v_minor w)
  \/ (v_major v = v_major w /\ v_minor v = v_minor w /\ v_patch v < v_patch w)
  \/ (v_major v = v_major w /\ v_minor v = v_minor w /\ v_patch v = v_patch w
      /\ v_build v < v_build w).
Proof.
  destruct v as [a b c d], w as [a' b' c' d'].
  unfold compare4, Semver.compare_Z. cbn [v_major v_minor v_patch v_build].
  destruct (a =? a') eqn:Ea; destruct (b =? b') eqn:Eb; destruct (c =? c') eqn:Ec;
    cbn [negb];
    repeat match goal with
           | |- context [?x <? ?y] => destruct (x <? y) eqn:?
           end; split; intros H; try discriminate H; try reflexivity; lia.
Qed.

Lemma compare4_trans (u v w : Version) :
  compare4 u v = -1 -> compare4 v w = -1 -> compare4 u w = -1.
Proof. rewrite !compare4_less. lia. Qed.

Lemma compare4_range (v w : Version) :
  compare4 v w = -1 \/ compare4 v w = 0 \/ compare4 v w = 1.
Proof.
  unfold compare4, Semver.compare_Z.
  repeat match goal with
         | |- context [if ?b then _ else _] => destruct b
         end; auto.
Qed.

End CompareFacts.

(** The copy of [compareVersions] at lines 37-54 is a total order on the
    texts of representable versions: it returns [0] on equal versions and
    only there, exchanging the arguments negates the result, and [less] is
    transitive. *)
Theorem compareVersions_total_order (u v w : Version) (su sv sw : string) :
  representable u -> representable v -> representable w ->
  text_of u su -> text_of v sv -> text_of w sw ->
  Codec.compareVersions (Some su) (Some su) = Some 0
  /\ (Codec.compareVersions (Some su) (Some sv) = Some 0 <-> u = v)
  /\ (exists c, Codec.compareVersions (Some su) (Some sv) = Some c
                /\ Codec.compareVersions (Some sv) (Some su) = Some (- c)
                /\ (c = -1 \/ c = 0 \/ c = 1))
  /\ (Codec.compareVersions (Some su) (Some sv) = Some (-1) ->
      Codec.compareVersions (Some sv) (Some sw) = Some (-1) ->
      Codec.compareVersions (Some su) (Some sw) = Some (-1)).
Proof.
  intros Hu Hv Hw Hsu Hsv Hsw.
  rewrite !(compareVersions_formatted u u), !(compareVersions_formatted u v),
    !(compareVersions_formatted v u), !(compareVersions_formatted v w),
    !(compareVersions_formatted u w) by assumption.
  split; [now rewrite compare4_refl|].
  split.
  { rewrite <- compare4_zero. split; [now intros [= ->] | now intros ->]. }
  split.
  { exists (compare4 u v). split; [reflexivity|]. split.
    - now rewrite compare4_antisym.
    - apply compare4_range. }
  intros [= H1] [= H2]. f_equal. now apply (compare4_trans u v w).
Qed.

Lemma compareVersions_total_order_witness :
  Codec.compareVersions (Some "50.8.47+177") (Some "50.8.47+177") = Some 0.
Proof.
  assert (Hr : representable (Build_Version 50 8 47 177)).
  { unfold representable, Semver.MAX_SAFE_INTEGER. cbn. lia. }
  exact (proj1 (compareVersions_total_order
                  (Build_Version 50 8 47 177) (Build_Version 50 8 47 177)
                  (Build_Version 50 8 47 177)
                  "50.8.47+177" "50.8.47+177" "50.8.47+177" Hr Hr Hr
                  (text_full (Build_Version 50 8 47 177))
                  (text_full (Build_Version 50 8 47 177))
                  (text_full (Build_Version 50 8 47 177)))).
Defined.

(** C2.  The copy of [compareVersions] at lines 619-636 answers [-1] for
    two equal versions: its last test is [<=], which holds for equal build
    numbers, so the [return 0] after it is not reached for them. *)
Theorem token_compareVersions_same_version :
  TokenCodec.compareVersions (Some "50.8.47+177") (Some "50.8.47+177") = Some (-1)
  /\ Codec.compareVersions (Some "50.8.47+177") (Some "50.8.47+177") = Some 0.
Proof. split; vm_compute; reflexivity. Qed.

(** C6, as amended.  For a version text whose base is a plain
    [major.minor.patch] of representable numbers with the patch below
    [MAX_SAFE_INTEGER], alone or followed by a [+] suffix,
    [generateNextVersion] gives a version that [compareVersions] finds
    strictly greater. *)
Theorem next_version_greater (a b c : Z) (suffix : string) :
  0 <= a <= Semver.MAX_SAFE_INTEGER ->
  0 <= b <= Semver.MAX_SAFE_INTEGER ->
  0 <= c < Semver.MAX_SAFE_INTEGER ->
  suffix = EmptyString \/ (exists t, suffix = String "+" t) ->
  Codec.compareVersions
    (Some (Codec.generateNextVersion (Some (core_text a b c ++ suffix))))
    (Some (core_text a b c ++ suffix))
  = Some 1.
Proof.
  intros Ha Hb Hc Hsuffix.
  assert (Sa : safe a) by (unfold safe, Semver.MAX_SAFE_INTEGER, JS.TWO_53 in *; lia).
  assert (Sb : safe b) by (unfold safe, Semver.MAX_SAFE_INTEGER, JS.TWO_53 in *; lia).
  assert (Sc : safe c) by (unfold safe, Semver.MAX_SAFE_INTEGER, JS.TWO_53 in *; lia).
  assert (Sc1 : safe (c + 1)) by (unfold safe, Semver.MAX_SAFE_INTEGER, JS.TWO_53 in *; lia).
  destruct (split_core_suffix a b c suffix Hsuffix) as [parts Hsplit].
  destruct (parse_core_text a b c suffix parts Sa Sb Sc Hsplit)
    as (p & Hp & Hmaj & Hmin & Hpat & Hbase & _).
  rewrite (next_text _ p a b c) by assumption.
  set (t := JS.to_string (JS.add (Codec.build p) (JS.Num 1))).
  destruct (split_core_suffix a b (c + 1) (String "+" t)) as [parts' Hsplit'];
    [right; now exists t|].
  destruct (parse_core_text a b (c + 1) (String "+" t) parts' Sa Sb Sc1 Hsplit')
    as (q & Hq & _ & _ & _ & Hqbase & _).
  unfold Codec.compareVersions. rewrite Hp, Hq, Hbase, Hqbase.
  rewrite semver_compare_core by (unfold Semver.MAX_SAFE_INTEGER in *; lia).
  unfold Semver.compare_main, Semver.compare_Z.
  cbn [Semver.major Semver.minor Semver.patch].
  rewrite !Z.eqb_refl. cbn [negb].
  replace (c + 1 =? c) with false by (symmetry; apply Z.eqb_neq; lia).
  replace (c + 1 <? c) with false by (symmetry; apply Z.ltb_ge; lia).
  replace (c <? c + 1) with true by (symmetry; apply Z.ltb_lt; lia).
  reflexivity.
Qed.

Lemma next_version_greater_witness :
  Codec.compareVersions
    (Some (Codec.generateNextVersion (Some "50.8.47+177"))) (Some "50.8.47+177")
  = Some 1.
Proof.
  apply (next_version_greater 50 8 47 "+177").
  - unfold Semver.MAX_SAFE_INTEGER. lia.
  - unfold Semver.MAX_SAFE_INTEGER. lia.
  - unfold Semver.MAX_SAFE_INTEGER. lia.
  - right. exists "177". reflexivity.
Defined.

(** C6, counterexample.  The text [1.0] parses (a missing component counts
    as 0) and its next version is [1.0.1+1], but comparing the two throws:
    [semver] does not accept the base [1.0]. *)
Lemma next_version_greater_counterexample :
  Codec.parseFlutterVersion (Some "1.0")
  = Some (Codec.mk (JS.Num 1) (JS.Num 0) (JS.Num 0) (JS.Num 0) "1.0" "1.0")
  /\ Codec.generateNextVersion (Some "1.0") = "1.0.1+1"
  /\ Codec.compareVersions (Some "1.0.1+1") (Some "1.0") = None
  /\ Codec.compareVersions (Some (Codec.generateNextVersion (Some "1.0"))) (Some "1.0")
     <> Some 1.
Proof.
  split; [reflexivity|]. split; [vm_compute; reflexivity|].
  split; [vm_compute; reflexivity|]. vm_compute. discriminate.
Qed.

(** With a leading [v], which [semver] accepts and [parseInt] does not, the
    next version even compares as smaller. *)
Lemma next_version_smaller_with_v_prefix :
  Codec.generateNextVersion (Some "v1.2.3+4") = "0.2.4+5"
  /\ Codec.compareVersions (Some "0.2.4+5") (Some "v1.2.3+4") = Some (-1).
Proof. split; vm_compute; reflexivity. Qed.

(** ** The history scan *)

Section ScanFacts.

Import Effect History.

Variable E : env.
Variable currentVersion : string.

Lemma after_nil (s : state) : after [] s = s.
Proof. now destruct s. Qed.

Lemma after_after (a b : list event) (s : state) :
  after a (after b s) = after (a ++ b)%list s.
Proof. unfold after. cbn [pubspec trace]. now rewrite app_assoc. Qed.

Lemma quiet_show (object : string) (code : Z) : quiet_event (Git ["show"; object] code).
Proof. split; [exact I | intros [H _]; discriminate H]. Qed.

(** Asking git for an object: the invocation is recorded, a failure is
    logged as a warning and gives the empty text. *)
Lemma execGit_show (object : string) (s : state) :
  exists new,
    Action.execGit E ["show"; object] false s
    = (Ok (if negb (exitCode (show E object) =? 0)
           then EmptyString else JS.trim (stdout (show E object))),
       after new s)
    /\ Forall quiet_event new
    /\ (exitCode (show E object) <> 0 -> Exists is_log new).
Proof.
  cbv [Action.execGit bind get_trace emit ret throw warning].
  change (exec_git E (trace s) ["show"; object]) with (show E object).
  destruct (exitCode (show E object) =? 0) eqn:Hcode; cbn [negb].
  - eexists [_]. split; [reflexivity|]. split.
    + constructor; [apply quiet_show | constructor].
    + apply Z.eqb_eq in Hcode. intros H. contradiction.
  - eexists [_; _]. split; [reflexivity|]. split.
    + constructor; [split; [exact I | intros []]|].
      constructor; [apply quiet_show | constructor].
    + intros _. apply Exists_cons_hd. exact I.
Qed.

(** One iteration of the loop, by what the commit shows. *)
Lemma visit_spec (h : string) (n : nat) (fv : list found) (s : state) :
  exists new,
    visit E (Action.execGit E) currentVersion h n fv s
    = (Ok (match observed E h with
           | None => Continue n fv
           | Some v =>
               if String.eqb v currentVersion
               then Continue (S n)
                      (fv ++ [{| version := v; commit := substring 0 8 h |}])%list
               else if (1 <? n)%nat then Stop currentVersion else Stop v
           end),
       after new s)
    /\ Forall quiet_event new.
Proof.
  unfold visit, observed.
  destruct (negb (JS.truthy (Some (JS.trim h)))).
  { exists []. rewrite after_nil. split; [reflexivity | constructor]. }
  unfold try_catch, bind at 1.
  destruct (execGit_show (h ++ ":pubspec.yaml") s) as (new & -> & Hnew & _).
  fold (content_at E h).
  destruct (negb (JS.truthy (Some (content_at E h)))).
  { exists new. now split. }
  destruct (version_at E (content_at E h)) as [[|c v]|].
  - exists new. now split.
  - destruct (String.eqb (String c v) currentVersion).
    + exists new. now split.
    + destruct (1 <? n)%nat.
      * eexists (_ :: new). split; [reflexivity|].
        constructor; [split; [exact I | intros []] | exact Hnew].
      * exists new. now split.
  - exists new. now split.
Qed.

Lemma scan_cons (h : string) (rest : list string) (n : nat) (fv : list found) (s : state) :
  exists new,
    scan E (Action.execGit E) currentVersion (h :: rest) n fv s
    = match observed E h with
      | None => scan E (Action.execGit E) currentVersion rest n fv (after new s)
      | Some v =>
          if String.eqb v currentVersion
          then scan E (Action.execGit E) currentVersion rest (S n)
                 (fv ++ [{| version := v; commit := substring 0 8 h |}])%list (after new s)
          else (Ok (Return (if (1 <? n)%nat then currentVersion else v)), after new s)
      end
    /\ Forall quiet_event new.
Proof.
  cbn [scan]. unfold bind at 1.
  destruct (visit_spec h n fv s) as (new & -> & Hnew).
  exists new. split; [|exact Hnew].
  destruct (observed E h) as [v|]; [|reflexivity].
  destruct (String.eqb v currentVersion); [reflexivity|].
  now destruct (1 <? n)%nat.
Qed.

Lemma scan_same (pre rest : list string) :
  Forall (same_or_absent E currentVersion) pre ->
  forall n fv s,
  exists new,
    scan E (Action.execGit E) currentVersion (pre ++ rest)%list n fv s
    = scan E (Action.execGit E) currentVersion rest
        (n + occurrences E currentVersion pre) (fv ++ found_in E pre)%list (after new s)
    /\ Forall quiet_event new.
Proof.
  induction pre as [|h pre IH]; intros Hsame n fv s.
  - exists []. cbn. rewrite Nat.add_0_r, app_nil_r, after_nil. split; [reflexivity | constructor].
  - inversion Hsame as [|? ? Hh Hpre]; subst.
    cbn [app occurrences found_in].
    destruct (scan_cons h (pre ++ rest)%list n fv s) as (new1 & -> & Hnew1).
    destruct Hh as [Hh | Hh]; rewrite Hh.
    + destruct (IH Hpre n fv (after new1 s)) as (new2 & -> & Hnew2).
      exists (new2 ++ new1)%list. rewrite after_after.
      split; [reflexivity | now apply Forall_app].
    + rewrite String.eqb_refl.
      destruct (IH Hpre (S n) (fv ++ [{| version := currentVersion;
                                         commit := substring 0 8 h |}])%list
                  (after new1 s)) as (new2 & -> & Hnew2).
      exists (new2 ++ new1)%list. rewrite after_after, Nat.add_succ_r, <- app_assoc.
      split; [reflexivity | now apply Forall_app].
Qed.

Lemma scan_exhausted (l : list string) (n : nat) (fv : list found) (s : state) :
  Forall (same_or_absent E currentVersion) l ->
  exists new,
    scan E (Action.execGit E) currentVersion l n fv s
    = (Ok (Exhausted (n + occurrences E currentVersion l) (fv ++ found_in E l)%list),
       after new s)
    /\ Forall quiet_event new.
Proof.
  intros Hsame.
  destruct (scan_same l [] Hsame n fv s) as (new & Hscan & Hnew).
  rewrite app_nil_r in Hscan. exists new. now split.
Qed.

Lemma scan_differs (pre rest : list string) (d v : string) (n : nat) (fv : list found)
    (s : state) :
  Forall (same_or_absent E currentVersion) pre ->
  differs E currentVersion d v ->
  exists new,
    scan E (Action.execGit E) currentVersion (pre ++ d :: rest)%list n fv s
    = (Ok (Return (if (1 <? n + occurrences E currentVersion pre)%nat
                   then currentVersion else v)),
       after new s)
    /\ Forall quiet_event new.
Proof.
  intros Hsame [Hobs Hne].
  destruct (scan_same pre (d :: rest) Hsame n fv s) as (new1 & -> & Hnew1).
  destruct (scan_cons d rest (n + occurrences E currentVersion pre)
              (fv ++ found_in E pre)%list (after new1 s)) as (new2 & -> & Hnew2).
  rewrite Hobs, (proj2 (String.eqb_neq v currentVersion) Hne).
  exists (new2 ++ new1)%list. rewrite after_after.
  split; [reflexivity | now apply Forall_app].
Qed.

Lemma history_cases (l : list string) :
  Forall (same_or_absent E currentVersion) l
  \/ exists pre d rest v,
       l = (pre ++ d :: rest)%list
       /\ Forall (same_or_absent E currentVersion) pre
       /\ differs E currentVersion d v.
Proof.
  induction l as [|h l IH].
  - left. constructor.
  - destruct (observed E h) as [v|] eqn:Hobs.
    + destruct (String.eqb_spec v currentVersion) as [->|Hne].
      * destruct IH as [IH | (pre & d & rest & w & -> & Hpre & Hd)].
        -- left. constructor; [now right | exact IH].
        -- right. exists (h :: pre), d, rest, w.
           repeat split; try apply Hd.
           constructor; [now right | exact Hpre].
      * right. exists [], h, l, v. repeat split; [constructor | exact Hobs | exact Hne].
    + destruct IH as [IH | (pre & d & rest & w & -> & Hpre & Hd)].
      * left. constructor; [now left | exact IH].
      * right. exists (h :: pre), d, rest, w.
        repeat split; try apply Hd.
        constructor; [now left | exact Hpre].
Qed.

Lemma found_in_current (l : list string) :
  Forall (same_or_absent E currentVersion) l ->
  find (is_different currentVersion) (found_in E l) = None.
Proof.
  induction l as [|h l IH]; intros Hsame; [reflexivity|].
  inversion Hsame as [|? ? Hh Hl]; subst. cbn [found_in].
  destruct Hh as [Hh | Hh]; rewrite Hh; [now apply IH|].
  cbn [find]. unfold is_different at 1. cbn [version].
  rewrite String.eqb_refl. cbn [negb]. now apply IH.
Qed.

(** [findPreviousVersion] when there is at least one commit. *)
Lemma findPreviousVersion_scan (s : state) :
  commits E <> [] ->
  Action.findPreviousVersion E currentVersion s
  = match scan E (Action.execGit E) currentVersion (commits E) 0 [] s with
    | (Ok (Return previous), s') => (Ok (Some previous), s')
    | (Ok (Exhausted n fv), s') =>
        if (1 <? n)%nat
        then (Ok (Some currentVersion),
              after [Log Warning
                       ("Found " ++ JS.show_Z (Z.of_nat n)
                        ++ " commits with the same version " ++ currentVersion ++ "!")] s')
        else (Ok (match (if (0 <? List.length fv)%nat
                         then find (is_different currentVersion) fv else None) with
                  | Some lastDifferentVersion => Some (version lastDifferentVersion)
                  | None => None
                  end), s')
    | (Throw message, s') =>
        (Ok None,
         after [Log Warning ("Error finding previous version: " ++ message)] s')
    end.
Proof.
  intros Hne. unfold Action.findPreviousVersion, findPreviousVersion, try_catch.
  destruct (commits E) as [|c l] eqn:Hc; [contradiction|].
  unfold bind at 1.
  destruct (scan E (Action.execGit E) currentVersion (c :: l) 0 [] s)
    as [[[previous | n fv] | message] s'].
  - reflexivity.
  - destruct (1 <? n)%nat; [reflexivity|].
    unfold is_different.
    destruct (if (0 <? List.length fv)%nat then _ else None); reflexivity.
  - reflexivity.
Qed.

End ScanFacts.

(** C1.  When the current version has been observed in more than one commit
    before the first commit that shows another version, the scan answers
    with the current version itself, not with that other version.  "The
    same version" is identity of the version texts, as the scan tests it. *)
Theorem reuse_takes_precedence
    (E : Effect.env) (currentVersion : string) (pre rest : list string)
    (d v : string) (s : Effect.state) :
  Effect.commits E = (pre ++ d :: rest)%list ->
  Forall (same_or_absent E currentVersion) pre ->
  differs E currentVersion d v ->
  (1 < occurrences E currentVersion pre)%nat ->
  fst (Action.findPreviousVersion E currentVersion s) = Effect.Ok (Some currentVersion).
Proof.
  intros Hcommits Hsame Hd Hocc.
  rewrite findPreviousVersion_scan by (rewrite Hcommits; now destruct pre).
  rewrite Hcommits.
  destruct (scan_differs E currentVersion pre rest d v 0 [] s Hsame Hd) as (new & -> & _).
  cbn [Nat.add]. rewrite (proj2 (Nat.ltb_lt _ _) Hocc).
  reflexivity.
Qed.

Lemma reuse_takes_precedence_witness :
  fst (Action.findPreviousVersion
         (env_with [("c3", Some "50.8.47+177"); ("c2", Some "50.8.47+177");
                    ("c1", Some "50.8.46+175")] git_all_fine)
         "50.8.47+177" (Action.initial (Effect.Document (Some "50.8.47+177"))))
  = Effect.Ok (Some "50.8.47+177").
Proof.
  apply (reuse_takes_precedence _ _ ["c3"; "c2"] [] "c1" "50.8.46+175").
  - reflexivity.
  - repeat constructor; right; reflexivity.
  - split; [reflexivity | discriminate].
  - vm_compute. lia.
Defined.

(** C10.  The result of [findPreviousVersion] is [null], or the current
    version text, or the version of the first scanned commit that shows
    another version; and when the loop runs out of commits, the search of
    the collected versions for a different one (line 257) finds nothing. *)
Theorem findPreviousVersion_results
    (E : Effect.env) (currentVersion : string) (s : Effect.state) :
  (fst (Action.findPreviousVersion E currentVersion s) = Effect.Ok None
   \/ fst (Action.findPreviousVersion E currentVersion s)
      = Effect.Ok (Some currentVersion)
   \/ exists pre d rest v,
        Effect.commits E = (pre ++ d :: rest)%list
        /\ Forall (same_or_absent E currentVersion) pre
        /\ differs E currentVersion d v
        /\ fst (Action.findPreviousVersion E currentVersion s) = Effect.Ok (Some v))
  /\ match fst (History.scan E (Action.execGit E) currentVersion (Effect.commits E) 0 [] s) with
     | Effect.Ok (History.Exhausted n foundVersions) =>
         find (is_different currentVersion) foundVersions = None
     | _ => True
     end.
Proof.
  destruct (history_cases E currentVersion (Effect.commits E))
    as [Hsame | (pre & d & rest & v & Hcommits & Hpre & Hd)].
  - destruct (scan_exhausted E currentVersion (Effect.commits E) 0 [] s Hsame)
      as (new & Hscan & _).
    split.
    + destruct (Effect.commits E) as [|c l] eqn:Hc.
      * left. unfold Action.findPreviousVersion, History.findPreviousVersion.
        rewrite Hc. reflexivity.
      * rewrite findPreviousVersion_scan by (rewrite Hc; discriminate).
        rewrite Hc, Hscan. cbn [app Nat.add].
        destruct (1 <? _)%nat; [right; left; reflexivity|].
        left. rewrite (found_in_current E currentVersion _ Hsame).
        now destruct (0 <? _)%nat.
    + rewrite Hscan. cbn [fst app].
      apply found_in_current, Hsame.
  - destruct (scan_differs E currentVersion pre rest d v 0 [] s Hpre Hd)
      as (new & Hscan & _).
    rewrite <- Hcommits in Hscan. cbn [Nat.add] in Hscan.
    split.
    + assert (Hres : fst (Action.findPreviousVersion E currentVersion s)
                     = Effect.Ok (Some (if (1 <? occurrences E currentVersion pre)%nat
                                        then currentVersion else v))).
      { rewrite findPreviousVersion_scan by (rewrite Hcommits; now destruct pre).
        now rewrite Hscan. }
      destruct (1 <? occurrences E currentVersion pre)%nat.
      * right. left. exact Hres.
      * right. right. exists pre, d, rest, v.
        split; [exact Hcommits|]. split; [exact Hpre|]. split; [exact Hd | exact Hres].
    + now rewrite Hscan.
Qed.

(** ** Which events a computation adds *)

Section Frames.

Import Effect.

Context {A B : Type}.
Variable P : event -> Prop.

Lemma adds_ret (a : A) : adds P (ret a).
Proof. intros s. split; [reflexivity|]. exists []. split; [reflexivity | constructor]. Qed.

Lemma adds_throw (message : string) : adds P (@throw A message).
Proof. intros s. split; [reflexivity|]. exists []. split; [reflexivity | constructor]. Qed.

Lemma adds_emit (e : event) : P e -> adds P (emit e).
Proof.
  intros He s. split; [reflexivity|]. exists [e]. split; [reflexivity|].
  constructor; [exact He | constructor].
Qed.

Lemma adds_get_trace : adds P get_trace.
Proof. intros s. split; [reflexivity|]. exists []. split; [reflexivity | constructor]. Qed.

Lemma adds_read_pubspec : adds P read_pubspec.
Proof. intros s. split; [reflexivity|]. exists []. split; [reflexivity | constructor]. Qed.

Lemma adds_bind (m : M A) (k : A -> M B) :
  adds P m -> (forall a, adds P (k a)) -> adds P (bind m k).
Proof.
  intros Hm Hk s. unfold bind.
  destruct (Hm s) as (Hp1 & new1 & Ht1 & Hn1).
  destruct (m s) as [[a | e] s1]; cbn [snd] in *.
  - destruct (Hk a s1) as (Hp2 & new2 & Ht2 & Hn2).
    split; [congruence|]. exists (new2 ++ new1)%list.
    split; [rewrite Ht2, Ht1; apply app_assoc | now apply Forall_app].
  - split; [exact Hp1|]. exists new1. now split.
Qed.

Lemma adds_try_catch (m : M A) (h : string -> M A) :
  adds P m -> (forall e, adds P (h e)) -> adds P (try_catch m h).
Proof.
  intros Hm Hh s. unfold try_catch.
  destruct (Hm s) as (Hp1 & new1 & Ht1 & Hn1).
  destruct (m s) as [[a | e] s1]; cbn [snd] in *.
  - split; [exact Hp1|]. exists new1. now split.
  - destruct (Hh e s1) as (Hp2 & new2 & Ht2 & Hn2).
    split; [congruence|]. exists (new2 ++ new1)%list.
    split; [rewrite Ht2, Ht1; apply app_assoc | now apply Forall_app].
Qed.

Lemma adds_weaken (Q : event -> Prop) (m : M A) :
  (forall e, P e -> Q e) -> adds P m -> adds Q m.
Proof.
  intros HPQ Hm s. destruct (Hm s) as (Hp & new & Ht & Hn).
  split; [exact Hp|]. exists new. split; [exact Ht|].
  eapply Forall_impl; [exact HPQ | exact Hn].
Qed.

End Frames.

Section GitFrames.

Import Effect.

Variable E : env.
Variable P : event -> Prop.
Hypothesis P_log : forall l message, P (Log l message).

Lemma adds_warning (message : string) : adds P (warning message).
Proof. apply adds_emit, P_log. Qed.

Lemma adds_error (message : string) : adds P (error message).
Proof. apply adds_emit, P_log. Qed.

Lemma adds_execGit (args : list string) (throwOnError : bool) :
  (forall code, P (Git args code)) -> adds P (Action.execGit E args throwOnError).
Proof.
  intros Hgit. unfold Action.execGit.
  apply adds_bind; [apply adds_get_trace|]. intros t.
  apply adds_bind; [apply adds_emit, Hgit|]. intros _.
  destruct (negb _); [|apply adds_ret].
  destruct throwOnError; [apply adds_throw|].
  apply adds_bind; [apply adds_warning|]. intros _. apply adds_ret.
Qed.

Lemma adds_token_execGit (args : list string) (throwOnError : bool) :
  (forall code, P (Git args code)) -> adds P (TokenAction.execGit E args throwOnError).
Proof.
  intros Hgit. unfold TokenAction.execGit.
  apply adds_bind; [apply adds_get_trace|]. intros t.
  apply adds_bind; [apply adds_emit, Hgit|]. intros _.
  destruct (negb _); [|apply adds_ret].
  destruct throwOnError; [apply adds_throw|].
  apply adds_bind; [apply adds_warning|]. intros _. apply adds_ret.
Qed.

End GitFrames.

(** Membership in a list that computes. *)
Ltac in_list := vm_compute; repeat (first [left; reflexivity | right]).

Ltac event_side :=
  intros;
  try match goal with
      | |- quiet_event (Effect.Log _ _) => split; [exact I | intros []]
      | |- quiet_event _ =>
          split; [exact I | let H := fresh in intros [H _]; vm_compute in H; discriminate H]
      | |- git_or_log _ => exact I
      end.

Ltac adds_step :=
  match goal with
  | |- adds _ (Effect.bind _ _) => apply adds_bind; [|intros ?]
  | |- adds _ (Effect.try_catch _ _) => apply adds_try_catch; [|intros ?]
  | |- adds _ (Effect.ret _) => apply adds_ret
  | |- adds _ (Effect.throw _) => apply adds_throw
  | |- adds _ (Effect.warning _) => apply adds_warning; event_side
  | |- adds _ (Effect.error _) => apply adds_error; event_side
  | |- adds _ (Action.execGit _ _ _) => apply adds_execGit; event_side
  | |- adds _ (TokenAction.execGit _ _ _) => apply adds_token_execGit; event_side
  | |- adds _ (if ?b then _ else _) => destruct b
  | |- adds _ (match ?x with _ => _ end) => destruct x
  end.

Section QuietPlumbing.

Import Effect.

Variable E : env.

Lemma quiet_log (l : level) (message : string) : quiet_event (Log l message).
Proof. split; [exact I | intros []]. Qed.

Lemma quiet_try_user_configs (configs : list (string * string)) :
  forall i, adds quiet_event (Action.try_user_configs E i configs).
Proof.
  induction configs as [|[email name] rest IH]; intros i; cbn [Action.try_user_configs].
  - apply adds_ret.
  - repeat adds_step. apply IH.
Qed.

Lemma quiet_configureGit (userEmail userName : string) :
  adds quiet_event (Action.configureGit E userEmail userName).
Proof.
  unfold Action.configureGit. cbv zeta.
  apply adds_try_catch; [|intros ?; repeat adds_step].
  apply adds_bind; [apply quiet_try_user_configs|]. intros configSuccess.
  repeat adds_step.
Qed.

End QuietPlumbing.

Section Tolerance.

Import Effect.

Lemma quiet_is_git_or_log (e : event) : quiet_event e -> git_or_log e.
Proof. now intros [H _]. Qed.

Lemma plumbing_not_failed (l : list event) : Forall git_or_log l -> failed_in l = false.
Proof.
  induction 1 as [|e l He _ IH]; [reflexivity|].
  destruct e; cbn in He |- *; try contradiction; exact IH.
Qed.

Lemma plumbing_no_output (name : string) (l : list event) :
  Forall git_or_log l -> output_in name l = None.
Proof.
  induction 1 as [|e l He _ IH]; [reflexivity|].
  destruct e; cbn in He |- *; try contradiction; exact IH.
Qed.

Lemma tolerant_of_quiet {A : Type} (m : M A) : adds quiet_event m -> tolerant m.
Proof.
  intros Hm s. destruct (Hm s) as (Hp & new & Ht & Hn).
  split; [exact Hp|]. exists new. split; [exact Ht|]. split; [|now left].
  eapply Forall_impl; [exact quiet_is_git_or_log | exact Hn].
Qed.

Lemma tolerant_bind_quiet {A B : Type} (m : M A) (k : A -> M B) :
  adds quiet_event m -> (forall a, tolerant (k a)) -> tolerant (bind m k).
Proof.
  intros Hm Hk s. unfold bind.
  destruct (Hm s) as (Hp1 & new1 & Ht1 & Hn1).
  assert (Hg1 : Forall git_or_log new1)
    by (eapply Forall_impl; [exact quiet_is_git_or_log | exact Hn1]).
  destruct (m s) as [[a | e] s1]; cbn [snd fst] in *.
  - destruct (Hk a s1) as (Hp2 & new2 & Ht2 & Hg2 & Hcase).
    split; [congruence|]. exists (new2 ++ new1)%list.
    split; [rewrite Ht2, Ht1; apply app_assoc|].
    split; [now apply Forall_app|].
    destruct Hcase as [Hq | [Hok Hw]].
    + left. now apply Forall_app.
    + right. split; [exact Hok|]. apply Exists_app. now left.
  - split; [exact Hp1|]. exists new1. split; [exact Ht1|]. split; [exact Hg1 | now left].
Qed.

Lemma tolerant_bind_ret {A B : Type} (m : M A) (b : B) :
  tolerant m -> tolerant (bind m (fun _ => ret b)).
Proof.
  intros Hm s. unfold bind, ret.
  destruct (Hm s) as (Hp1 & new1 & Ht1 & Hg1 & Hcase).
  destruct (m s) as [[a | e] s1]; cbn [snd fst] in *.
  - split; [exact Hp1|]. exists new1. split; [exact Ht1|]. split; [exact Hg1|].
    destruct Hcase as [Hq | [_ Hw]]; [now left | right]. split; [now exists b | exact Hw].
  - split; [exact Hp1|]. exists new1. split; [exact Ht1|]. split; [exact Hg1|].
    destruct Hcase as [Hq | [[a Hok] _]]; [now left | discriminate Hok].
Qed.

Lemma tolerant_try_catch {A : Type} (m : M A) (h : string -> M A) :
  tolerant m -> (forall e, adds quiet_event (h e)) -> tolerant (try_catch m h).
Proof.
  intros Hm Hh s. unfold try_catch.
  destruct (Hm s) as (Hp1 & new1 & Ht1 & Hg1 & Hcase).
  destruct (m s) as [[a | e] s1]; cbn [snd fst] in *.
  - split; [exact Hp1|]. exists new1. split; [exact Ht1|]. split; [exact Hg1|].
    destruct Hcase as [Hq | [_ Hw]]; [now left | right]. split; [now exists a | exact Hw].
  - destruct (Hh e s1) as (Hp2 & new2 & Ht2 & Hn2).
    split; [congruence|]. exists (new2 ++ new1)%list.
    split; [rewrite Ht2, Ht1; apply app_assoc|].
    assert (Hg2 : Forall git_or_log new2)
      by (eapply Forall_impl; [exact quiet_is_git_or_log | exact Hn2]).
    split; [now apply Forall_app|].
    destruct Hcase as [Hq | [[a Hok] _]]; [|discriminate Hok].
    left. now apply Forall_app.
Qed.

Variable E : env.

(** The guarded push of the tag (lines 411-417): always returns; a failure
    leaves a warning. *)
Lemma tolerant_tag_push (tagName : string) :
  tolerant
    (try_catch
       (bind (Action.execGit E ["push"; "origin"; tagName] true) (fun _ => ret tt))
       (fun tagError => warning ("Failed to push tag: " ++ tagError))).
Proof.
  intros s. cbv [try_catch bind Action.execGit get_trace emit ret throw warning].
  cbn [pubspec trace snd fst].
  destruct (exitCode (exec_git E (trace s) ["push"; "origin"; tagName]) =? 0) eqn:Hcode;
    cbn [negb snd fst pubspec trace].
  - split; [reflexivity|]. eexists [_]. split; [reflexivity|].
    split; [repeat constructor|]. left. constructor; [|constructor].
    split; [exact I|]. intros [_ H]. apply Z.eqb_eq in Hcode. contradiction.
  - split; [reflexivity|]. eexists [_; _]. split; [reflexivity|].
    split; [repeat constructor|]. right. split; [now exists tt|].
    apply Exists_cons_hd. now eexists.
Qed.

(** [commitAndPush] of lines 344-446. *)
Lemma tolerant_commitAndPush
    (branch newVersion previousVersion customMessage userEmail userName : string) :
  tolerant (Action.commitAndPush E branch newVersion previousVersion customMessage
              userEmail userName).
Proof.
  unfold Action.commitAndPush. cbv zeta.
  apply tolerant_try_catch; [|intros ?; repeat adds_step].
  apply tolerant_bind_quiet; [apply quiet_configureGit|]. intros _.
  apply tolerant_bind_quiet; [repeat adds_step|]. intros status.
  destruct (negb _); [apply tolerant_of_quiet, adds_ret|].
  do 7 (apply tolerant_bind_quiet; [repeat adds_step|]; intros _).
  apply tolerant_bind_quiet; [repeat adds_step|]. intros _.
  apply tolerant_bind_ret, tolerant_tag_push.
Qed.

End Tolerance.

(** The current revision (lines 344-446, with the guard of lines 410-417):
    when the push of the tag fails during [commitAndPush], the failure is
    logged as a warning and [commitAndPush] returns normally; the manifest
    is not touched and nothing but git plumbing happens. *)
Theorem tag_push_failure_is_not_fatal
    (E : Effect.env)
    (branch newVersion previousVersion customMessage userEmail userName : string)
    (s : Effect.state) (new : list Effect.event) :
  Effect.trace (snd (Action.commitAndPush E branch newVersion previousVersion
                       customMessage userEmail userName s))
  = (new ++ Effect.trace s)%list ->
  Exists tag_push_failed new ->
  fst (Action.commitAndPush E branch newVersion previousVersion
         customMessage userEmail userName s) = Effect.Ok tt
  /\ Exists tag_warning new
  /\ Forall git_or_log new.
Proof.
  intros Htrace Hfailed.
  destruct (tolerant_commitAndPush E branch newVersion previousVersion customMessage
              userEmail userName s) as (_ & new' & Ht & Hg & Hcase).
  assert (new' = new) by (eapply app_inv_tail; rewrite <- Ht; exact Htrace). subst new'.
  destruct Hcase as [Hq | [[[] Hok] Hw]].
  - exfalso. apply Exists_exists in Hfailed. destruct Hfailed as (e & Hin & He).
    rewrite Forall_forall in Hq. now destruct (Hq e Hin).
  - auto.
Qed.

(** ** The run *)

Section RunFacts.

Import Effect.

Variable E : env.

Lemma getCurrentVersion_document (currentVersion : string) (t : list event) :
  JS.truthy (Some currentVersion) = true ->
  Action.getCurrentVersion {| pubspec := Document (Some currentVersion); trace := t |}
  = (Ok (Some currentVersion), {| pubspec := Document (Some currentVersion); trace := t |}).
Proof.
  intros H. cbv [Action.getCurrentVersion bind read_pubspec ret]. cbn [pubspec].
  now rewrite H.
Qed.

Lemma findPreviousVersion_first_build (currentVersion : string) (s : state) :
  Forall (same_or_absent E currentVersion) (commits E) ->
  (occurrences E currentVersion (commits E) <= 1)%nat ->
  exists new,
    Action.findPreviousVersion E currentVersion s = (Ok None, after new s)
    /\ Forall git_or_log new.
Proof.
  intros Hsame Hocc. destruct (commits E) as [|c l] eqn:Hc.
  - exists [Log Warning "No commit history found"]. split; [|repeat constructor].
    unfold Action.findPreviousVersion, History.findPreviousVersion. rewrite Hc. reflexivity.
  - rewrite findPreviousVersion_scan by (rewrite Hc; discriminate). rewrite Hc.
    destruct (scan_exhausted E currentVersion (c :: l) 0 [] s Hsame) as (new & -> & Hnew).
    cbn [Nat.add app]. rewrite (proj2 (Nat.ltb_ge _ _) Hocc).
    rewrite (found_in_current E currentVersion _ Hsame).
    exists new. split; [now destruct (0 <? _)%nat|].
    eapply Forall_impl; [exact quiet_is_git_or_log | exact Hnew].
Qed.

Lemma run_first_build (currentVersion : string) :
  pubspec_exists E = true ->
  JS.truthy (Some currentVersion) = true ->
  Forall (same_or_absent E currentVersion) (commits E) ->
  (occurrences E currentVersion (commits E) <= 1)%nat ->
  exists plumbing,
    Action.run E (Action.initial (Document (Some currentVersion)))
    = (Ok tt,
       {| pubspec := Document (Some currentVersion);
          trace := (rev (first_build_outputs currentVersion) ++ plumbing)%list |})
    /\ Forall git_or_log plumbing.
Proof.
  intros Hexists Htruthy Hsame Hocc.
  unfold Action.run, try_catch, Action.initial. rewrite Hexists. cbn [negb].
  unfold bind at 1. rewrite getCurrentVersion_document by exact Htruthy.
  unfold bind at 1.
  destruct (findPreviousVersion_first_build currentVersion
              {| pubspec := Document (Some currentVersion); trace := [] |} Hsame Hocc)
    as (new & -> & Hnew).
  exists new. split; [|exact Hnew].
  cbv [Action.reconcile bind setOutput emit after]. cbn [pubspec trace].
  now rewrite app_nil_r.
Qed.

End RunFacts.

(** C4.  When the scan runs through all commits without meeting a version
    other than the current one, and the current one at most once (an empty
    list of commits included), it finds no previous version; the run reports
    [previous-version] as [none] and [version-updated] as [false], does not
    fail, and leaves the manifest as it was: apart from the git invocations
    and the log lines of the scan, the three outputs are all that happens. *)
Theorem first_build_accepted (E : Effect.env) (currentVersion : string) :
  Effect.pubspec_exists E = true ->
  JS.truthy (Some currentVersion) = true ->
  Forall (same_or_absent E currentVersion) (Effect.commits E) ->
  (occurrences E currentVersion (Effect.commits E) <= 1)%nat ->
  let start := Action.initial (Effect.Document (Some currentVersion)) in
  let finish := snd (Action.run E start) in
  fst (Action.findPreviousVersion E currentVersion start) = Effect.Ok None
  /\ fst (Action.run E start) = Effect.Ok tt
  /\ (exists plumbing,
        Forall git_or_log plumbing
        /\ Effect.events finish
           = (plumbing ++ [Effect.SetOutput "previous-version" "none";
                           Effect.SetOutput "current-version" currentVersion;
                           Effect.SetOutput "version-updated" "false"])%list)
  /\ Effect.output "previous-version" finish = Some "none"
  /\ Effect.output "version-updated" finish = Some "false"
  /\ Effect.output "current-version" finish = Some currentVersion
  /\ Effect.failed finish = false
  /\ Effect.pubspec finish = Effect.Document (Some currentVersion).
Proof.
  intros Hexists Htruthy Hsame Hocc start finish.
  destruct (findPreviousVersion_first_build E currentVersion start Hsame Hocc)
    as (new & Hfind & _).
  destruct (run_first_build E currentVersion Hexists Htruthy Hsame Hocc)
    as (plumbing & Hrun & Hplumbing).
  subst finish start. rewrite Hrun, Hfind.
  cbn [fst snd Effect.pubspec]. unfold Effect.events, Effect.output, Effect.failed.
  cbn [Effect.trace].
  split; [reflexivity|]. split; [reflexivity|]. split.
  { exists (rev plumbing). split; [now apply Forall_rev|].
    now rewrite rev_app_distr, rev_involutive. }
  cbn [first_build_outputs rev app Effect.failed_in].
  rewrite (plumbing_not_failed plumbing Hplumbing).
  repeat split; reflexivity.
Qed.

Lemma first_build_accepted_witness :
  let E := env_with [("c2", Some "1.0.0+1"); ("c1", None)] git_all_fine in
  let finish := snd (Action.run E (Action.initial (Effect.Document (Some "1.0.0+1")))) in
  fst (Action.findPreviousVersion E "1.0.0+1"
         (Action.initial (Effect.Document (Some "1.0.0+1")))) = Effect.Ok None
  /\ Effect.output "previous-version" finish = Some "none"
  /\ Effect.output "version-updated" finish = Some "false"
  /\ Effect.pubspec finish = Effect.Document (Some "1.0.0+1").
Proof.
  cbv zeta.
  refine ((fun H => conj (proj1 H)
                      (conj (proj1 (proj2 (proj2 (proj2 H))))
                         (conj (proj1 (proj2 (proj2 (proj2 (proj2 H)))))
                            (proj2 (proj2 (proj2 (proj2 (proj2 (proj2 (proj2 H))))))))))
            (first_build_accepted
               (env_with [("c2", Some "1.0.0+1"); ("c1", None)] git_all_fine)
               "1.0.0+1" _ _ _ _)).
  - reflexivity.
  - reflexivity.
  - constructor; [right; reflexivity|]. constructor; [left; reflexivity | constructor].
  - vm_compute. lia.
Defined.

(** The run of this witness in full: the commit without a manifest makes
    git fail, which [execGit] logs as a warning before the scan goes on. *)
Example first_build_with_missing_manifest :
  Effect.events
    (snd (Action.run (env_with [("c2", Some "1.0.0+1"); ("c1", None)] git_all_fine)
            (Action.initial (Effect.Document (Some "1.0.0+1")))))
  = [Effect.Git ["show"; "c2:pubspec.yaml"] 0;
     Effect.Git ["show"; "c1:pubspec.yaml"] 128;
     Effect.Log Effect.Warning
       ("Git command failed: git show c1:pubspec.yaml" ++ nl
        ++ "Error: fatal: invalid object name 'c1:pubspec.yaml'" ++ nl
        ++ "Output: ");
     Effect.SetOutput "previous-version" "none";
     Effect.SetOutput "current-version" "1.0.0+1";
     Effect.SetOutput "version-updated" "false"].
Proof. vm_compute. reflexivity. Qed.

(** Without any commit the scan is not entered; a warning says so. *)
Example first_build_without_history :
  Effect.events
    (snd (Action.run (env_with [] git_all_fine)
            (Action.initial (Effect.Document (Some "1.0.0+1")))))
  = [Effect.Log Effect.Warning "No commit history found";
     Effect.SetOutput "previous-version" "none";
     Effect.SetOutput "current-version" "1.0.0+1";
     Effect.SetOutput "version-updated" "false"].
Proof. vm_compute. reflexivity. Qed.

Section Identical.

Lemma compare_Z_refl (x : Z) : Semver.compare_Z x x = 0.
Proof. unfold Semver.compare_Z. now rewrite Z.ltb_irrefl. Qed.

Lemma compare_pre_from_refl (l : list Semver.identifier) : Semver.compare_pre_from l l = 0.
Proof.
  induction l as [|i l IH]; [reflexivity|]. cbn [Semver.compare_pre_from].
  assert (Hi : Semver.compare_identifiers i i = 0).
  { destruct i as [n | t]; cbn; [apply compare_Z_refl | now rewrite String.eqb_refl]. }
  rewrite Hi. exact IH.
Qed.

Lemma semver_compare_refl (a : string) :
  Semver.compare a a = Some 0 \/ Semver.compare a a = None.
Proof.
  unfold Semver.compare. destruct (Semver.parse a) as [x|]; [left | now right].
  assert (Hmain : Semver.compare_main x x = 0).
  { unfold Semver.compare_main. rewrite !Z.eqb_refl. apply compare_Z_refl. }
  rewrite Hmain. cbn [Z.eqb]. unfold Semver.compare_pre.
  destruct (Semver.prerelease x) as [|i l] eqn:Hpre; [reflexivity|].
  now rewrite compare_pre_from_refl.
Qed.

(** Comparing a text with itself gives [0], unless [semver] throws. *)
Lemma compareVersions_identical (v : option string) :
  Codec.compareVersions v v = Some 0 \/ Codec.compareVersions v v = None.
Proof.
  unfold Codec.compareVersions.
  destruct (Codec.parseFlutterVersion v) as [p|]; [|now left].
  destruct (semver_compare_refl (Codec.base p)) as [-> | ->]; [left | now right].
  cbn [Z.eqb negb].
  unfold JS.gt. destruct (Codec.build p) as [b | negative |]; cbn [JS.lt].
  - now rewrite Z.ltb_irrefl.
  - now destruct negative.
  - reflexivity.
Qed.

Lemma compareVersions_empty (v : option string) :
  Codec.compareVersions v (Some EmptyString) = Some 0.
Proof.
  unfold Codec.compareVersions. now destruct (Codec.parseFlutterVersion v).
Qed.

Lemma compareVersions_less_not_identical (a b : string) :
  Codec.compareVersions (Some a) (Some b) = Some (-1) -> String.eqb a b = false.
Proof.
  intros H. apply String.eqb_neq. intros ->.
  destruct (compareVersions_identical (Some b)) as [H' | H']; congruence.
Qed.

End Identical.

Section Correction.

Import Effect.

Variable E : env.

(** The scan is git plumbing: it leaves the manifest alone, and pushes no
    tag. *)
Lemma findPreviousVersion_frame (currentVersion : string) :
  adds quiet_event (Action.findPreviousVersion E currentVersion).
Proof.
  assert (Hvisit : forall h n fv,
             adds quiet_event (History.visit E (Action.execGit E) currentVersion h n fv)).
  { intros h n fv. unfold History.visit. repeat adds_step. }
  assert (Hscan : forall l n fv,
             adds quiet_event (History.scan E (Action.execGit E) currentVersion l n fv)).
  { induction l as [|h l IH]; intros n fv; cbn [History.scan].
    - apply adds_ret.
    - apply adds_bind; [apply Hvisit|]. intros [n' fv' | previous]; [apply IH | apply adds_ret]. }
  unfold Action.findPreviousVersion, History.findPreviousVersion.
  apply adds_try_catch.
  - destruct (commits E) as [|c l].
    + repeat adds_step.
    + apply adds_bind; [apply Hscan|]. intros [previous | n fv]; [apply adds_ret|].
      destruct (1 <? n)%nat.
      * repeat adds_step.
      * destruct (if (0 <? List.length fv)%nat then _ else None); apply adds_ret.
  - intros message. repeat adds_step.
Qed.

Lemma quiet_is_no_write (l : list event) (v : string) :
  Forall quiet_event l -> ~ In (WritePubspec v) l.
Proof.
  intros H Hin. rewrite Forall_forall in H. now destruct (H _ Hin).
Qed.

(** The regression branch of [reconcile], up to the outcome of
    [commitAndPush]. *)
Lemma reconcile_regression (branch currentVersion : string) (c : ascii) (r : string)
    (s : state) (old : option string) :
  Codec.compareVersions (Some currentVersion) (Some (String c r)) = Some (-1) ->
  pubspec s = Document old ->
  pubspec_write_error E = None ->
  let previousVersion := String c r in
  let newVersion := Codec.generateNextVersion (Some previousVersion) in
  let written :=
    {| pubspec := Document (Some newVersion);
       trace := WritePubspec newVersion
                :: Log Warning ("Version " ++ currentVersion
                                ++ " is lower than previous version " ++ previousVersion ++ "!")
                :: SetOutput "current-version" currentVersion
                :: SetOutput "previous-version" previousVersion
                :: trace s |} in
  Action.reconcile E branch currentVersion (Some previousVersion) s
  = match Action.commitAndPush E branch newVersion previousVersion
            (input_commit_message E) (input_git_user_email E) (input_git_user_name E)
            written with
    | (Ok _, s') =>
        (Ok tt,
         {| pubspec := pubspec s';
            trace := SetOutput "current-version" newVersion
                     :: SetOutput "new-version" newVersion
                     :: SetOutput "version-updated" "true"
                     :: trace s' |})
    | (Throw message, s') => (Throw message, s')
    end.
Proof.
  intros Hcompare Hpubspec Hwrite previousVersion newVersion written.
  pose proof (compareVersions_less_not_identical _ _ Hcompare) as Hdistinct.
  subst previousVersion newVersion written.
  cbv [Action.reconcile Action.compare Action.apply_correction
       Action.updatePubspecVersion Action.getCurrentVersion
       bind setOutput setFailed warning emit ret read_pubspec write_pubspec].
  cbn [pubspec trace]. rewrite Hcompare, Hdistinct, Hpubspec, Hwrite.
  cbn [Z.ltb Z.compare negb pubspec trace].
  match goal with
  | |- context [Action.commitAndPush ?e ?a ?b ?c ?d ?f ?g ?h] =>
      destruct (Action.commitAndPush e a b c d f g h) as [[[] | message] s']
  end; reflexivity.
Qed.

(** The same branch when the manifest cannot be rewritten. *)
Lemma reconcile_regression_unwritable
    (branch currentVersion : string) (c : ascii) (r reason : string) (s : state)
    (old : option string) :
  Codec.compareVersions (Some currentVersion) (Some (String c r)) = Some (-1) ->
  pubspec s = Document old ->
  pubspec_write_error E = Some reason ->
  Action.reconcile E branch currentVersion (Some (String c r)) s
  = (Ok tt,
     {| pubspec := pubspec s;
        trace := SetFailed "Failed to update pubspec.yaml"
                 :: Log Error ("Error updating pubspec.yaml: " ++ reason)
                 :: Log Warning ("Version " ++ currentVersion
                                 ++ " is lower than previous version " ++ String c r ++ "!")
                 :: SetOutput "current-version" currentVersion
                 :: SetOutput "previous-version" (String c r)
                 :: trace s |}).
Proof.
  intros Hcompare Hpubspec Hwrite.
  pose proof (compareVersions_less_not_identical _ _ Hcompare) as Hdistinct.
  cbv [Action.reconcile Action.compare Action.apply_correction
       Action.updatePubspecVersion Action.getCurrentVersion
       bind setOutput setFailed warning error emit ret read_pubspec write_pubspec].
  cbn [pubspec trace]. rewrite Hcompare, Hdistinct, Hpubspec, Hwrite.
  cbn [Z.ltb Z.compare negb pubspec trace]. reflexivity.
Qed.

(** [run] from a readable manifest: the scan, then [reconcile], then the
    handler of the outer [try]. *)
Lemma run_reconcile (currentVersion : string) :
  pubspec_exists E = true ->
  JS.truthy (Some currentVersion) = true ->
  Action.run E (Action.initial (Document (Some currentVersion)))
  = match Action.findPreviousVersion E currentVersion
            (Action.initial (Document (Some currentVersion))) with
    | (Ok previousVersion, s1) =>
        match Action.reconcile E
                (if JS.truthy (Some (input_branch E)) then input_branch E else "main")
                currentVersion previousVersion s1 with
        | (Ok a, s') => (Ok a, s')
        | (Throw message, s') => setFailed ("Action failed: " ++ message) s'
        end
    | (Throw message, s1) => setFailed ("Action failed: " ++ message) s1
    end.
Proof.
  intros Hexists Htruthy.
  unfold Action.run, try_catch, Action.initial. rewrite Hexists. cbn [negb].
  unfold bind at 1. rewrite getCurrentVersion_document by exact Htruthy.
  unfold bind at 1.
  now destruct (Action.findPreviousVersion E currentVersion _) as [[previous | message] s1].
Qed.

Lemma plumbing_is_no_write (l : list event) (v : string) :
  Forall git_or_log l -> ~ In (WritePubspec v) l.
Proof.
  intros H Hin. rewrite Forall_forall in H. exact (H _ Hin).
Qed.

End Correction.

(** C5.  In a run whose reference version is strictly greater than the
    current one under [compareVersions], the only version ever written to
    the manifest is [generateNextVersion] of the reference; the write
    happens whenever the manifest is writable; and unless the run fails (the
    write or the commit and push failing), it reports [version-updated] as
    [true] and that version as [new-version].  For the current version
    [1.0.3+8] and the reference [1.0.5+10] the corrected version is
    [1.0.6+11]. *)
Theorem regression_corrected_from_reference :
  (forall (E : Effect.env) (currentVersion previousVersion : string),
     Effect.pubspec_exists E = true ->
     JS.truthy (Some currentVersion) = true ->
     fst (Action.findPreviousVersion E currentVersion
            (Action.initial (Effect.Document (Some currentVersion))))
     = Effect.Ok (Some previousVersion) ->
     Codec.compareVersions (Some currentVersion) (Some previousVersion) = Some (-1) ->
     let finish :=
       snd (Action.run E (Action.initial (Effect.Document (Some currentVersion)))) in
     let newVersion := Codec.generateNextVersion (Some previousVersion) in
     (forall v, In (Effect.WritePubspec v) (Effect.trace finish) -> v = newVersion)
     /\ (Effect.pubspec_write_error E = None ->
         Effect.pubspec finish = Effect.Document (Some newVersion)
         /\ In (Effect.WritePubspec newVersion) (Effect.trace finish))
     /\ (Effect.failed finish = false ->
         Effect.output "version-updated" finish = Some "true"
         /\ Effect.output "new-version" finish = Some newVersion
         /\ Effect.output "current-version" finish = Some newVersion))
  /\ Codec.compareVersions (Some "1.0.3+8") (Some "1.0.5+10") = Some (-1)
  /\ Codec.generateNextVersion (Some "1.0.5+10") = "1.0.6+11".
Proof.
  split; [|split; reflexivity].
  intros E currentVersion previousVersion Hexists Htruthy Hfound Hcompare finish newVersion.
  subst finish. rewrite (run_reconcile E currentVersion Hexists Htruthy).
  destruct (findPreviousVersion_frame E currentVersion
              (Action.initial (Effect.Document (Some currentVersion))))
    as (Hp1 & new1 & Ht1 & Hlog1).
  destruct (Action.findPreviousVersion E currentVersion _) as [[found | message] s1];
    cbn [fst snd] in *; [|discriminate Hfound].
  injection Hfound as ->.
  destruct previousVersion as [|c r];
    [rewrite compareVersions_empty in Hcompare; discriminate Hcompare|].
  unfold Action.initial in Hp1, Ht1. cbn [Effect.pubspec Effect.trace] in Hp1, Ht1.
  rewrite app_nil_r in Ht1.
  destruct (Effect.pubspec_write_error E) as [reason|] eqn:Hwrite.
  - rewrite (reconcile_regression_unwritable E _ _ _ _ reason s1 _ Hcompare Hp1 Hwrite).
    cbn [snd Effect.trace Effect.pubspec]. unfold Effect.failed. cbn [Effect.trace].
    split; [|split; [discriminate | discriminate]].
    intros v Hin. exfalso. rewrite Ht1 in Hin.
    repeat (destruct Hin as [Hin | Hin]; [discriminate Hin|]).
    exact (quiet_is_no_write _ _ Hlog1 Hin).
  - rewrite (reconcile_regression E _ _ _ _ s1 _ Hcompare Hp1 Hwrite).
    match goal with
    | |- context [Action.commitAndPush ?e ?a ?b ?c ?d ?f ?g ?h] =>
        destruct (tolerant_commitAndPush e a b c d f g h) as (Hp2 & new2 & Ht2 & Hg2 & _);
        destruct (Action.commitAndPush e a b c d f g h) as [[[] | message] s2]
    end; cbn [fst snd Effect.trace Effect.pubspec] in *.
    + split; [|split].
      * intros v Hin. rewrite Ht2, Ht1 in Hin.
        repeat (destruct Hin as [Hin | Hin]; [discriminate Hin|]).
        apply in_app_or in Hin. destruct Hin as [Hin | Hin];
          [exfalso; exact (plumbing_is_no_write _ _ Hg2 Hin)|].
        destruct Hin as [Hin | Hin]; [now injection Hin|].
        repeat (destruct Hin as [Hin | Hin]; [discriminate Hin|]).
        exfalso. exact (quiet_is_no_write _ _ Hlog1 Hin).
      * intros _. split; [exact Hp2|]. rewrite Ht2.
        do 3 right. apply in_or_app. right. now left.
      * intros _. unfold Effect.output. cbn [Effect.trace]. repeat split; reflexivity.
    + unfold Effect.setFailed, Effect.emit. cbn [snd Effect.trace Effect.pubspec].
      unfold Effect.failed. cbn [Effect.trace Effect.failed_in].
      split; [|split; [|discriminate]].
      * intros v Hin. rewrite Ht2, Ht1 in Hin.
        destruct Hin as [Hin | Hin]; [discriminate Hin|].
        apply in_app_or in Hin. destruct Hin as [Hin | Hin];
          [exfalso; exact (plumbing_is_no_write _ _ Hg2 Hin)|].
        destruct Hin as [Hin | Hin]; [now injection Hin|].
        repeat (destruct Hin as [Hin | Hin]; [discriminate Hin|]).
        exfalso. exact (quiet_is_no_write _ _ Hlog1 Hin).
      * intros _. split; [exact Hp2|]. rewrite Ht2.
        right. apply in_or_app. right. now left.
Qed.

Lemma regression_corrected_from_reference_witness :
  let finish :=
    snd (Action.run (env_with [("c1", Some "1.0.5+10")] git_all_fine)
           (Action.initial (Effect.Document (Some "1.0.3+8")))) in
  Effect.output "version-updated" finish = Some "true"
  /\ Effect.output "new-version" finish = Some "1.0.6+11"
  /\ Effect.output "current-version" finish = Some "1.0.6+11".
Proof.
  refine (proj2 (proj2 (proj1 regression_corrected_from_reference
                          (env_with [("c1", Some "1.0.5+10")] git_all_fine)
                          "1.0.3+8" "1.0.5+10" _ _ _ _)) _).
  - reflexivity.
  - reflexivity.
  - reflexivity.
  - reflexivity.
  - vm_compute. reflexivity.
Defined.

Section EqualReference.

Import Effect.

Variable E : env.

(** When the reference is another text that compares equal, [reconcile]
    publishes the two versions and ends: none of its three branches
    applies. *)
Lemma reconcile_equal (branch currentVersion : string) (c : ascii) (r : string)
    (s : state) :
  Codec.compareVersions (Some currentVersion) (Some (String c r)) = Some 0 ->
  currentVersion <> String c r ->
  Action.reconcile E branch currentVersion (Some (String c r)) s
  = (Ok tt,
     {| pubspec := pubspec s;
        trace := SetOutput "current-version" currentVersion
                 :: SetOutput "previous-version" (String c r)
                 :: trace s |}).
Proof.
  intros Hcompare Hdistinct. apply String.eqb_neq in Hdistinct.
  cbv [Action.reconcile Action.compare bind setOutput emit ret].
  cbn [pubspec trace]. rewrite Hcompare, Hdistinct. reflexivity.
Qed.

End EqualReference.

(** C3.  The manifest says [1.2.3]; the newest commit has [1.2.3] too and the
    one before it [1.2.3+0].  The current version is observed once, the scan
    answers [1.2.3+0], which compares equal to [1.2.3] - and the run ends
    without a correction: the manifest is unchanged and [version-updated] is
    not set at all. *)
Theorem equal_reference_left_uncorrected :
  let E := env_with [("c2", Some "1.2.3"); ("c1", Some "1.2.3+0")] git_all_fine in
  let start := Action.initial (Effect.Document (Some "1.2.3")) in
  let finish := snd (Action.run E start) in
  occurrences E "1.2.3" (Effect.commits E) = 1%nat
  /\ fst (Action.findPreviousVersion E "1.2.3" start) = Effect.Ok (Some "1.2.3+0")
  /\ Codec.compareVersions (Some "1.2.3") (Some "1.2.3+0") = Some 0
  /\ Effect.events finish
     = [Effect.Git ["show"; "c2:pubspec.yaml"] 0;
        Effect.Git ["show"; "c1:pubspec.yaml"] 0;
        Effect.SetOutput "previous-version" "1.2.3+0";
        Effect.SetOutput "current-version" "1.2.3"]
  /\ Effect.output "version-updated" finish = None
  /\ Effect.pubspec finish = Effect.Document (Some "1.2.3").
Proof. repeat split; vm_compute; reflexivity. Qed.

(** On the same input the token-based revision, whose [compareVersions]
    answers [-1] for equal versions, does correct. *)
Lemma equal_reference_corrected_by_token_revision :
  let E := env_with [("c2", Some "1.2.3"); ("c1", Some "1.2.3+0")] git_all_fine in
  let finish := snd (TokenAction.run E (Action.initial (Effect.Document (Some "1.2.3")))) in
  Effect.output "version-updated" finish = Some "true"
  /\ Effect.pubspec finish = Effect.Document (Some "1.2.4+1").
Proof. split; vm_compute; reflexivity. Qed.

(** The scenario of the README: the manifest says [50.8.47+177], the two
    newest commits say the same and the third [50.8.46+175]; reuse is
    detected and the version becomes [50.8.48+178], tagged [v50.8.48+178]. *)
Lemma reuse_scenario :
  let E := env_with [("c3", Some "50.8.47+177"); ("c2", Some "50.8.47+177");
                     ("c1", Some "50.8.46+175")] git_all_fine in
  let finish := snd (Action.run E (Action.initial (Effect.Document (Some "50.8.47+177")))) in
  Effect.output "previous-version" finish = Some "50.8.47+177"
  /\ Effect.output "new-version" finish = Some "50.8.48+178"
  /\ Effect.pubspec finish = Effect.Document (Some "50.8.48+178")
  /\ In (Effect.Git ["tag"; "-a"; "v50.8.48+178"; "-m"; "Release v50.8.48+178"] 0)
       (Effect.trace finish)
  /\ Effect.failed finish = false.
Proof.
  cbv zeta.
  split; [vm_compute; reflexivity|].
  split; [vm_compute; reflexivity|].
  split; [vm_compute; reflexivity|].
  split; [in_list | vm_compute; reflexivity].
Qed.

Lemma tag_push_failure_is_not_fatal_witness :
  fst (Action.commitAndPush (env_with [] git_tag_push_fails)
         "main" "1.0.6+11" "1.0.5+10" EmptyString EmptyString EmptyString
         (Action.initial (Effect.Document (Some "1.0.6+11"))))
  = Effect.Ok tt
  /\ Exists tag_warning tag_failure_trace
  /\ Forall git_or_log tag_failure_trace.
Proof.
  apply (tag_push_failure_is_not_fatal (env_with [] git_tag_push_fails)
           "main" "1.0.6+11" "1.0.5+10" EmptyString EmptyString EmptyString
           (Action.initial (Effect.Document (Some "1.0.6+11"))) tag_failure_trace).
  - vm_compute. reflexivity.
  - apply Exists_cons_tl, Exists_cons_hd. split; [reflexivity | discriminate].
Defined.

(** C9.  In the token-based revision (lines 873-912) the push of the tag is
    not guarded: with a repository in which every git command succeeds
    except the push of the tag, the commit is made, the push of the tag
    fails, [commitAndPush] throws and the run is marked as failed.  The
    current revision, in the same repository, finishes and reports the
    update. *)
Theorem token_revision_tag_push_failure_is_fatal :
  let E := env_with [("c1", Some "1.0.5+10")] git_tag_push_fails in
  let start := Action.initial (Effect.Document (Some "1.0.3+8")) in
  let old := snd (TokenAction.run E start) in
  let current := snd (Action.run E start) in
  (exists message, In (Effect.Git ["commit"; "-m"; message] 0) (Effect.trace old))
  /\ In (Effect.Git ["push"; "origin"; "v1.0.6+11"] 1) (Effect.trace old)
  /\ Effect.failed old = true
  /\ Effect.output "version-updated" old = None
  /\ fst (TokenAction.commitAndPush (env_with [] git_tag_push_fails)
            "main" "1.0.6+11" "1.0.5+10" EmptyString "token" start)
     = Effect.Throw "The process 'git' failed with exit code 1"
  /\ In (Effect.Git ["push"; "origin"; "v1.0.6+11"] 1) (Effect.trace current)
  /\ Effect.failed current = false
  /\ Effect.output "version-updated" current = Some "true".
Proof.
  cbv zeta.
  split; [eexists; in_list|].
  split; [in_list|].
  split; [vm_compute; reflexivity|].
  split; [vm_compute; reflexivity|].
  split; [vm_compute; reflexivity|].
  split; [in_list|].
  split; vm_compute; reflexivity.
Qed.

(** ** The whole run and a failing tag push (current revision) *)

Section RunSettles.

Import Effect.

Variable E : env.

Lemma failed_in_app (a b : list event) :
  failed_in (a ++ b)%list = failed_in a || failed_in b.
Proof.
  induction a as [|e a IH]; [reflexivity|]. destruct e; cbn; try exact IH. reflexivity.
Qed.

Lemma output_in_app (name : string) (a b : list event) :
  output_in name (a ++ b)%list
  = match output_in name a with
    | Some v => Some v
    | None => output_in name b
    end.
Proof.
  induction a as [|e a IH]; [reflexivity|]. destruct e; cbn; try exact IH.
  now destruct (String.eqb name0 name).
Qed.

Lemma quiet_no_failure (l : list event) :
  Forall quiet_event l -> Forall (fun e => ~ tag_push_failed e) l.
Proof. apply Forall_impl. now intros e [_ H]. Qed.

(** The events of a piece of the run are put in front of the events
   before it. *)
Lemma settled_after (r : res unit) (new before : list event) :
  settled r new ->
  Forall (fun e => ~ tag_push_failed e) before ->
  failed_in before = false ->
  settled r (new ++ before)%list.
Proof.
  intros [Hnone | (Hr & Hf & Ho & Hw)] Hbefore Hnot.
  - left. now apply Forall_app.
  - right. split; [exact Hr|]. split; [now rewrite failed_in_app, Hf, Hnot|].
    split; [now rewrite output_in_app, Ho|]. apply Exists_app. now left.
Qed.

Lemma apply_correction_settled (branch newVersion reference : string) (s : state) :
  exists new,
    trace (snd (Action.apply_correction E branch newVersion reference s))
    = (new ++ trace s)%list
    /\ settled (fst (Action.apply_correction E branch newVersion reference s)) new.
Proof.
  cbv [Action.apply_correction Action.updatePubspecVersion Action.getCurrentVersion
       bind read_pubspec write_pubspec emit error setFailed setOutput ret].
  cbn [pubspec trace].
  destruct (pubspec s) as [reason | old]; [|destruct (pubspec_write_error E) as [reason|]];
    cbn [negb pubspec trace fst snd].
  - eexists [_; _]. split; [reflexivity|]. left.
    repeat constructor; intros [].
  - eexists [_; _]. split; [reflexivity|]. left.
    repeat constructor; intros [].
  - match goal with
    | |- context [Action.commitAndPush ?e ?a ?b ?c ?d ?f ?g ?h] =>
        destruct (tolerant_commitAndPush e a b c d f g h) as (_ & new2 & Ht2 & Hg2 & Hcase);
        destruct (Action.commitAndPush e a b c d f g h) as [[[] | message] s2]
    end; cbn [fst snd trace pubspec] in *.
    + eexists (_ :: _ :: _ :: new2 ++ [_])%list. split.
      { rewrite Ht2. cbn [app]. now rewrite <- app_assoc. }
      destruct Hcase as [Hq | [_ Hw]].
      * left. repeat (constructor; [intros []|]).
        apply Forall_app. split; [now apply quiet_no_failure|].
        repeat constructor. intros [].
      * right. split; [reflexivity|].
        cbn [failed_in output_in String.eqb Ascii.eqb Bool.eqb].
        rewrite failed_in_app, (plumbing_not_failed new2 Hg2).
        split; [reflexivity|]. split; [reflexivity|].
        do 3 apply Exists_cons_tl. apply Exists_app. now left.
    + eexists (new2 ++ [_])%list. split.
      { rewrite Ht2. now rewrite <- app_assoc. }
      destruct Hcase as [Hq | [[a Hok] _]]; [|discriminate Hok].
      left. apply Forall_app. split; [now apply quiet_no_failure|].
      repeat constructor. intros [].
Qed.

Lemma reconcile_settled (branch currentVersion : string) (previousVersion : option string)
    (s : state) :
  exists new,
    trace (snd (Action.reconcile E branch currentVersion previousVersion s))
    = (new ++ trace s)%list
    /\ settled (fst (Action.reconcile E branch currentVersion previousVersion s)) new.
Proof.
  assert (Hplain : forall l : list event,
             Forall (fun e => match e with
                              | SetOutput _ _ | Log _ _ => True
                              | _ => False
                              end) l ->
             Forall (fun e => ~ tag_push_failed e) l /\ failed_in l = false).
  { induction 1 as [|e l He _ [IH1 IH2]]; [split; [constructor | reflexivity]|].
    destruct e; try contradiction; (split; [constructor; [intros [] | exact IH1] | exact IH2]). }
  assert (Hcorrect : forall nv reference before s0,
             Forall (fun e => match e with
                              | SetOutput _ _ | Log _ _ => True
                              | _ => False
                              end) before ->
             trace s0 = (before ++ trace s)%list ->
             exists new,
               trace (snd (Action.apply_correction E branch nv reference s0))
               = (new ++ trace s)%list
               /\ settled (fst (Action.apply_correction E branch nv reference s0)) new).
  { intros nv reference before s0 Hbefore Hs0.
    destruct (apply_correction_settled branch nv reference s0) as (new & Ht & Hs).
    exists (new ++ before)%list. split; [now rewrite Ht, Hs0, app_assoc|].
    destruct (Hplain before Hbefore) as [H1 H2]. now apply settled_after. }
  unfold Action.reconcile, Action.compare.
  cbv [bind setOutput warning emit ret throw]. cbn [pubspec trace].
  destruct previousVersion as [[|c r]|].
  - eexists [_; _; _]. split; [reflexivity|]. left. repeat constructor; intros [].
  - destruct (Codec.compareVersions (Some currentVersion) (Some (String c r)))
      as [comparison|]; cbn [fst snd trace pubspec].
    + destruct (String.eqb currentVersion (String c r)).
      * eapply (Hcorrect _ _ [_; _; _]); [|reflexivity]; repeat constructor.
      * destruct (0 <? comparison).
        -- eexists [_; _; _]. split; [reflexivity|]. left. repeat constructor; intros [].
        -- destruct (comparison <? 0).
           ++ eapply (Hcorrect _ _ [_; _; _]); [|reflexivity]; repeat constructor.
           ++ eexists [_; _]. split; [reflexivity|]. left. repeat constructor; intros [].
    + eexists [_; _]. split; [reflexivity|]. left. repeat constructor; intros [].
  - eexists [_; _; _]. split; [reflexivity|]. left. repeat constructor; intros [].
Qed.

End RunSettles.

Lemma run_settled (E : Effect.env) (f : Effect.pubspec_file) :
  settled (fst (Action.run E (Action.initial f)))
    (Effect.trace (snd (Action.run E (Action.initial f)))).
Proof.
  unfold Action.run, Effect.try_catch, Action.initial.
  destruct (negb (Effect.pubspec_exists E)).
  { left. repeat constructor. intros []. }
  unfold Effect.bind at 1.
  cbv [Action.getCurrentVersion Effect.bind Effect.read_pubspec Effect.ret Effect.error
       Effect.emit Effect.setFailed].
  cbn [Effect.pubspec Effect.trace].
  destruct f as [reason | [currentVersion|]]; cbn [fst snd Effect.trace].
  - left. repeat constructor; intros [].
  - destruct (JS.truthy (Some currentVersion)); cbn [fst snd Effect.trace];
      [|left; repeat constructor; intros []].
    destruct (findPreviousVersion_frame E currentVersion
                {| Effect.pubspec := Effect.Document (Some currentVersion);
                   Effect.trace := [] |}) as (_ & new1 & Ht1 & Hlog1).
    rewrite app_nil_r in Ht1.
    destruct (Action.findPreviousVersion E currentVersion _)
      as [[previousVersion | message] s1]; cbn [fst snd Effect.trace] in *.
    + match goal with
      | |- context [Action.reconcile ?e ?b ?c ?p ?s] =>
          destruct (reconcile_settled e b c p s) as (new & Ht & Hs);
          destruct (Action.reconcile e b c p s) as [[[] | message] s2]
      end; cbn [fst snd Effect.trace] in *.
      * rewrite Ht, Ht1. apply settled_after;
          [exact Hs | now apply quiet_no_failure
           | apply plumbing_not_failed;
             eapply Forall_impl; [exact quiet_is_git_or_log | exact Hlog1]].
      * destruct Hs as [Hnone | [Hr _]]; [|discriminate Hr].
        left. constructor; [intros []|]. rewrite Ht, Ht1.
        apply Forall_app. split; [exact Hnone | now apply quiet_no_failure].
    + left. constructor; [intros []|]. rewrite Ht1. now apply quiet_no_failure.
  - left. repeat constructor; intros [].
Qed.

(** The current revision, whole run: whenever the push of the tag fails in
    a run, whatever the repository and the manifest, the run is not marked
    as failed, it reports [version-updated] as [true], and the failure is in
    the log as a warning. *)
Theorem run_survives_tag_push_failure (E : Effect.env) (f : Effect.pubspec_file) :
  let finish := snd (Action.run E (Action.initial f)) in
  Exists tag_push_failed (Effect.trace finish) ->
  fst (Action.run E (Action.initial f)) = Effect.Ok tt
  /\ Effect.failed finish = false
  /\ Effect.output "version-updated" finish = Some "true"
  /\ Exists tag_warning (Effect.trace finish).
Proof.
  intros finish Hfailed. subst finish.
  destruct (run_settled E f) as [Hnone | H]; [|exact H].
  exfalso. apply Exists_exists in Hfailed. destruct Hfailed as (e & Hin & He).
  rewrite Forall_forall in Hnone. exact (Hnone e Hin He).
Qed.

Lemma run_survives_tag_push_failure_witness :
  let finish :=
    snd (Action.run (env_with [("c1", Some "1.0.5+10")] git_tag_push_fails)
           (Action.initial (Effect.Document (Some "1.0.3+8")))) in
  Effect.failed finish = false
  /\ Effect.output "version-updated" finish = Some "true".
Proof.
  cbv zeta.
  refine ((fun H => conj (proj1 (proj2 H)) (proj1 (proj2 (proj2 H))))
            (run_survives_tag_push_failure
               (env_with [("c1", Some "1.0.5+10")] git_tag_push_fails)
               (Effect.Document (Some "1.0.3+8")) _)).
  vm_compute. do 4 apply Exists_cons_tl. apply Exists_cons_hd.
  split; [reflexivity | discriminate].
Defined.
